(** * Practical-React: the two "fetch a todo list" components

    A shallow embedding of [UseEff] (manual [useEffect] + [useState]) and of
    [RQuery] (the same screen on top of [useQuery]), together with the part
    of the React runtime the two components lean on: hook cells, commits,
    the dependency array of an effect and the settling of a promise. *)

From Stdlib Require Import ZArith.
From stdpp Require Import base option list strings gmap.

(** ** Data shared by both components *)

(** [interface Todo]. *)
Record Todo : Type := mkTodo {
  userId : Z;
  id : Z;
  title : string;
  completed : bool;
}.

(** A JavaScript [Error] (here an [AxiosError]); the components only ever
    read its [message]. *)
Record Error : Type := mkError { message : string }.

(** What a response with a success status hands over as [data].  The type
    argument of [axios.get<Todo[]>] is not checked at run time: the body is
    the array it promises, or something else that is not an array (text, a
    JSON object), kept here as the text received. *)
Inductive Body : Type :=
  | Items (data : list Todo)
  | NotArray (raw : string).

#[warnings="-uniform-inheritance"]
Coercion Items : list >-> Body.

(** How the promise returned by [axios.get<Todo[]>(url)] settles: resolved
    with the body of a response with a success status, or rejected
    (transport error, other status). *)
Inductive Response : Type :=
  | Resolved (data : Body)
  | Rejected (err : Error).

(** Whether a response is what the code is written for: a rejection, or an
    array. *)
Definition well_formed (r : Response) : bool :=
  match r with
  | Resolved (NotArray _) => false
  | _ => true
  end.

(** The outcome of a fetch as a screen observes it: not settled yet, or
    settled one way or the other. *)
Inductive FetchOutcome : Type :=
  | Pending
  | Settled (r : Response).

(** The three branches a component can return from. *)
Inductive ViewState : Type :=
  | Loading
  | Failure (msg : string)
  | Success (items : Body).

Definition is_loading (v : ViewState) : bool :=
  match v with Loading => true | _ => false end.
Definition is_failure (v : ViewState) : bool :=
  match v with Failure _ => true | _ => false end.
Definition is_success (v : ViewState) : bool :=
  match v with Success _ => true | _ => false end.
Definition terminal (v : ViewState) : bool := negb (is_loading v).

(** ** JSX output *)

(** A child of a [<div>]: literal text or a [{number}] expression. *)
Inductive Child : Type :=
  | Text (s : string)
  | Num (n : Z).

(** One [<div key={...}>...</div>] of the list. *)
Record Row : Type := mkRow { key : nat; children : list Child }.

Inductive Element : Type :=
  | Div (body : list Child)
  | Section_ (heading : string) (rows : list Row).

(** What a call of a component function ends in: the element it returns,
    or the exception it throws. *)
Inductive Rendered : Type :=
  | Returns (el : Element)
  | Throws (err : Error).

Coercion Returns : Element >-> Rendered.

(** ** Bodies of [async] functions

    The body of an [async] arrow function either completes or throws; on the
    way it may call state setters.  [M C A] records the setter calls made,
    in order, and the completion. *)
Module Async.

Definition M (C A : Type) : Type := (list C * (Error + A))%type.

Definition ret {C A} (a : A) : M C A := ([], inr a).
Definition throw {C A} (e : Error) : M C A := ([], inl e).
Definition call {C} (c : C) : M C unit := ([c], inr tt).

Definition bind {C A B} (m : M C A) (k : A → M C B) : M C B :=
  match m with
  | (cs, inl e) => (cs, inl e)
  | (cs, inr a) => let '(cs', r) := k a in (cs ++ cs', r)
  end.

(** [try { body } catch (err) { handler }]: calls made by [body] before
    it threw are kept. *)
Definition try_catch {C A} (body : M C A) (handler : Error → M C A) : M C A :=
  match body with
  | (cs, inl e) => let '(cs', r) := handler e in (cs ++ cs', r)
  | (cs, inr a) => (cs, inr a)
  end.

(** [await axios.get<Todo[]>(url)], destructured to [data]. *)
Definition axios_get {C} (r : Response) : M C Body :=
  match r with
  | Resolved data => ret data
  | Rejected err => throw err
  end.

Definition calls {C A} (m : M C A) : list C := fst m.
Definition completion {C A} (m : M C A) : Error + A := snd m.

End Async.

Notation "'let*' x := m 'in' k" := (Async.bind m (λ x, k))
  (at level 10, x name, m at level 100, k at level 200).
Notation "m ';>' k" := (Async.bind m (λ _, k))
  (at level 90, right associativity).

(** ** The manual component *)
Module UseEff.

(** The three [useState] cells. *)
Record State : Type := mkState {
  todos : Body;
  loading : bool;
  error : option Error;
}.

(** [useState([])], [useState(true)], [useState(null)]. *)
Definition initial : State :=
  {| todos := Items []; loading := true; error := None |}.

Inductive Call : Type :=
  | setTodos (data : Body)
  | setLoading (b : bool)
  | setError (e : option Error).

Definition apply_call (c : Call) (s : State) : State :=
  match c with
  | setTodos data => {| todos := data; loading := loading s; error := error s |}
  | setLoading b => {| todos := todos s; loading := b; error := error s |}
  | setError e => {| todos := todos s; loading := loading s; error := e |}
  end.

(** [fetchTodos], given how the request settles. *)
Definition fetchTodos (r : Response) : Async.M Call unit :=
  Async.try_catch
    (let* data := Async.axios_get r in
     Async.call (setTodos data) ;>
     Async.call (setLoading false))
    (λ err,
     Async.call (setError (Some err)) ;>
     Async.call (setLoading false)).

(** The branch taken by the component body: [if (loading)], then
    [if (error)] (an object is always truthy), else the list. *)
Definition view (s : State) : ViewState :=
  if loading s then Loading
  else match error s with
       | Some e => Failure (message e)
       | None => Success (todos s)
       end.

(** [todos.map((item, id) => <div key={id}>{item.title}</div>)]. *)
Definition rows (items : list Todo) : list Row :=
  imap (λ idx item, {| key := idx; children := [Text (title item)] |}) items.

(** The three [return]s.  In the last one [todos.map] is a call of a
    method that only arrays have: on another body it throws a [TypeError]. *)
Definition render_view (v : ViewState) : Rendered :=
  match v with
  | Loading => Div [Text "Loading..."%string]
  | Failure msg => Div [Text msg]
  | Success (Items items) =>
      Section_ "useEffect() vs React Query"%string (rows items)
  | Success (NotArray _) => Throws (mkError "todos.map is not a function")
  end.

(** What the component returns for given cell contents. *)
Definition UseEff (s : State) : Rendered := render_view (view s).

End UseEff.

(** ** The library-backed component *)
Module RQuery.

(** What the component destructures from [useQuery]. *)
Record QueryResult : Type := mkQueryResult {
  data : option Body;
  error : option Error;
  isLoading : bool;
}.

(** [fetchTodos]: no [try]/[catch] here, a rejected request rejects the
    returned promise. *)
Definition fetchTodos (r : Response) : Async.M Empty_set Body :=
  let* data := Async.axios_get r in
  Async.ret data.

(** Modelled from the spec: [useQuery] belongs to the external fetching
    library, of which the spec fixes only the contract
    [query(key, fetchFunction, options) → {data, error, isLoading}]:
    [isLoading] holds until the library has resolved the query, and then
    exactly one of [data] and [error] is set.  The argument [o] is that
    resolution, not the outcome of one request: [Pending] until the
    library resolves the query, through however many calls of the query
    function, then the settle it took as final, from which [data] is the
    value the query function returned and [error] the error it threw. *)
Definition useQuery (queryFn : Response → Async.M Empty_set Body)
    (o : FetchOutcome) : QueryResult :=
  match o with
  | Pending => {| data := None; error := None; isLoading := true |}
  | Settled r =>
      match Async.completion (queryFn r) with
      | inr d => {| data := Some d; error := None; isLoading := false |}
      | inl e => {| data := None; error := Some e; isLoading := false |}
      end
  end.

(** How the library resolves a query from the successive attempts of its
    query function, by its retry option (three by default): the first
    attempt that succeeds resolves it with the data; a failed attempt is
    tried again while retries are left and resolves it as failed when none
    is.  As long as the attempts settled so far decide nothing it is
    pending. *)
Fixpoint resolution (retries : nat) (attempts : list Response) : FetchOutcome :=
  match attempts with
  | [] => Pending
  | Resolved d :: _ => Settled (Resolved d)
  | Rejected e :: rest =>
      match retries with
      | 0 => Settled (Rejected e)
      | S n => resolution n rest
      end
  end.


(** The branch taken by the component body; [data?.map] over an absent
    [data] yields no rows, as over an empty array. *)
Definition view (q : QueryResult) : ViewState :=
  if isLoading q then Loading
  else match error q with
       | Some e => Failure (message e)
       | None => Success (default (Items []) (data q))
       end.

(** [data?.map((item, idx) => <div key={idx}>{item.id}) {item.title}</div>)]. *)
Definition rows (items : list Todo) : list Row :=
  imap (λ idx item,
          {| key := idx;
             children := [Num (id item); Text ") "%string; Text (title item)] |})
       items.

(** The three [return]s; [data?.map] on a body that is not an array is a
    call of something that is not a function and throws a [TypeError]. *)
Definition render_view (v : ViewState) : Rendered :=
  match v with
  | Loading => Div [Text "Loading..."%string]
  | Failure msg => Div [Text msg]
  | Success (Items items) =>
      Section_ "useEffect() vs React Query"%string (rows items)
  | Success (NotArray _) => Throws (mkError "data?.map is not a function")
  end.

(** What the component returns at a given resolution of its query. *)
Definition RQuery (o : FetchOutcome) : Rendered :=
  render_view (view (useQuery fetchTodos o)).

End RQuery.

(** ** The runtime around [UseEff]

    One [Instance] per activation of the component.  Besides the hook cells
    it keeps what the properties below observe: whether the instance is
    still mounted,
    the dependency array seen at the last commit, how many requests the
    instance has issued and how many of them are still in flight, and the
    views committed to the screen, oldest first. *)
Module Runtime.
Import UseEff.

Record Instance : Type := mkInstance {
  hooks : State;
  mounted : bool;
  last_deps : option (list Z);
  requests : nat;
  awaiting : nat;
  commits : list ViewState;
}.

Record World : Type := mkWorld {
  instances : list Instance;
  unhandled : list Error;   (* rejections no handler caught *)
}.

Inductive Event : Type :=
  | Mount                         (* the component is activated *)
  | Rerender (k : nat)            (* the parent renders instance [k] again *)
  | Unmount (k : nat)             (* instance [k] is deactivated *)
  | Settle (k : nat) (r : Response). (* the request of instance [k] settles *)

Definition empty : World := {| instances := []; unhandled := [] |}.

(** State of an instance that has not rendered yet. *)
Definition fresh : Instance :=
  {| hooks := initial; mounted := true; last_deps := None;
     requests := 0; awaiting := 0; commits := [] |}.

(** An effect runs after the first commit and after a commit whose
    dependency array differs from the previous one. *)
Definition deps_changed (prev : option (list Z)) (next : list Z) : bool :=
  match prev with
  | None => true
  | Some p => negb (bool_decide (p = next))
  end.

(** The dependency array of the only effect of [UseEff]: [[]]. *)
Definition effect_deps (s : State) : list Z := [].

(** [useEffect(() => { fetchTodos(); }, [])]: calling [fetchTodos] issues
    the request and suspends at the [await]. *)
Definition run_effect (i : Instance) : Instance :=
  {| hooks := hooks i; mounted := mounted i; last_deps := last_deps i;
     requests := S (requests i); awaiting := S (awaiting i);
     commits := commits i |}.

(** Render the component, put the result on the screen, run the effect
    if it is due.  If the component throws there is nothing to put on the
    screen: without an error boundary React removes the instance. *)
Definition commit (i : Instance) : Instance :=
  match UseEff.UseEff (hooks i) with
  | Throws _ =>
      {| hooks := hooks i; mounted := false; last_deps := last_deps i;
         requests := requests i; awaiting := awaiting i;
         commits := commits i |}
  | Returns _ =>
      let due := deps_changed (last_deps i) (effect_deps (hooks i)) in
      let i' := {| hooks := hooks i; mounted := mounted i;
                   last_deps := Some (effect_deps (hooks i));
                   requests := requests i; awaiting := awaiting i;
                   commits := commits i ++ [view (hooks i)] |} in
      if due then run_effect i' else i'
  end.

Definition set_hooks (s : State) (i : Instance) : Instance :=
  {| hooks := s; mounted := mounted i; last_deps := last_deps i;
     requests := requests i; awaiting := awaiting i; commits := commits i |}.

Definition unmount (i : Instance) : Instance :=
  {| hooks := hooks i; mounted := false; last_deps := last_deps i;
     requests := requests i; awaiting := awaiting i; commits := commits i |}.

Definition settled (i : Instance) : Instance :=
  {| hooks := hooks i; mounted := mounted i; last_deps := last_deps i;
     requests := requests i; awaiting := pred (awaiting i);
     commits := commits i |}.

Section Batching.
(** Whether setter calls made in one continuation are committed
    together (React 18) or one at a time (earlier versions, outside
    event handlers). *)
Variable batched : bool.

(** A setter call reaching React.  The component has no guard of its
    own ([fetchTodos] calls its setters unconditionally, and the effect
    returns no cleanup): it is React that treats a state update addressed
    to an instance that is no longer mounted as a no-op. *)
Definition dispatch (i : Instance) (c : Call) : Instance :=
  if mounted i then
    let i' := set_hooks (apply_call c (hooks i)) i in
    if batched then i' else commit i'
  else i.

Definition flush (cs : list Call) (i : Instance) : Instance :=
  if mounted i && batched && negb (bool_decide (cs = [])) then commit i else i.

(** The continuation of [fetchTodos] after its [await], run against
    instance [i]; also what the promise of [fetchTodos] rejects with, if
    it does. *)
Definition resume (r : Response) (i : Instance) : Instance * list Error :=
  let m := fetchTodos r in
  let i' := flush (Async.calls m) (foldl dispatch i (Async.calls m)) in
  (settled i',
   match Async.completion m with inl e => [e] | inr _ => [] end).

(** [None]: the event cannot happen in this world. *)
Definition step (w : World) (ev : Event) : option World :=
  match ev with
  | Mount =>
      Some {| instances := instances w ++ [commit fresh];
              unhandled := unhandled w |}
  | Rerender k =>
      i ← instances w !! k;
      if mounted i then
        Some {| instances := <[k := commit i]> (instances w);
                unhandled := unhandled w |}
      else None
  | Unmount k =>
      i ← instances w !! k;
      if mounted i then
        Some {| instances := <[k := unmount i]> (instances w);
                unhandled := unhandled w |}
      else None
  | Settle k r =>
      i ← instances w !! k;
      if bool_decide (0 < awaiting i) then
        let res := resume r i in
        Some {| instances := <[k := res.1]> (instances w);
                unhandled := unhandled w ++ res.2 |}
      else None
  end.

Fixpoint run (w : World) (evs : list Event) : option World :=
  match evs with
  | [] => Some w
  | ev :: evs' => w' ← step w ev; run w' evs'
  end.

Definition reachable (w : World) : Prop := ∃ evs, run empty evs = Some w.

End Batching.

Arguments resume : simpl never.
Arguments commit : simpl never.

(** Requests issued by all instances together. *)
Definition total_requests (w : World) : nat :=
  sum_list (requests <$> instances w).


(** The view the spec assigns to an outcome of the Fetcher ([Loading]
    while pending, then [Success] with the data or [Error] with the
    failure's message); written from the spec's words, to compare the
    components with. *)
Definition spec_view (o : FetchOutcome) : ViewState :=
  match o with
  | Pending => Loading
  | Settled (Resolved d) => Success d
  | Settled (Rejected e) => Failure (message e)
  end.

End Runtime.

(** ** What every instance looks like

    The cells after the continuation of [fetchTodos] has run on a mounted
    instance. *)
Definition final_hooks (r : Response) : UseEff.State :=
  match r with
  | Resolved d => {| UseEff.todos := d; UseEff.loading := false; UseEff.error := None |}
  | Rejected e =>
      {| UseEff.todos := Items []; UseEff.loading := false;
         UseEff.error := Some e |}
  end.

(** The life of an instance: its request is in flight; or it settled after
    the instance was unmounted and changed nothing; or it settled on the
    mounted instance, which then shows one terminal view for good; or it
    brought a body that is not an array, the render threw and React
    removed the instance. *)
Inductive inst_inv : Runtime.Instance → Prop :=
  | inv_pending n mo :
      inst_inv (Runtime.mkInstance UseEff.initial mo (Some []) 1 1
                  (replicate (S n) Loading))
  | inv_dropped n :
      inst_inv (Runtime.mkInstance UseEff.initial false (Some []) 1 0
                  (replicate (S n) Loading))
  | inv_settled r n m mo :
      well_formed r = true →
      inst_inv (Runtime.mkInstance (final_hooks r) mo (Some []) 1 0
                  (replicate (S n) Loading
                   ++ replicate (S m) (Runtime.spec_view (Settled r))))
  | inv_broken raw n :
      inst_inv (Runtime.mkInstance (final_hooks (Resolved (NotArray raw)))
                  false (Some []) 1 0 (replicate (S n) Loading)).

Definition world_inv (w : Runtime.World) : Prop :=
  Forall inst_inv (Runtime.instances w) ∧ Runtime.unhandled w = [].

(** The log of an unbatched or batched attempt, as a shape. *)
Definition attempt_log (l : list ViewState) : Prop :=
  ∃ n m v, l = replicate (S n) Loading ++ replicate m v ∧ terminal v = true.

(** ** Sample data: the scenarios of the specification *)

Definition sample_todos : list Todo :=
  [mkTodo 1 1 "A" false; mkTodo 1 2 "B" true].

Definition transport_error : Error := mkError "Network Error".

(** A page of text served with a success status in place of the list. *)
Definition malformed_response : Response :=
  Resolved (NotArray "<!doctype html>").

(** The world right after the first activation, in which instance [0] is
    waiting for its request. *)
Definition loading_world : Runtime.World :=
  default Runtime.empty (Runtime.run false Runtime.empty [Runtime.Mount]).

Definition loading_instance : Runtime.Instance :=
  Runtime.commit Runtime.fresh.

(** The world in which the request of instance [0] has brought the sample
    list, and its instance. *)
Definition success_world : Runtime.World :=
  default Runtime.empty
    (Runtime.run true Runtime.empty
       [Runtime.Mount; Runtime.Settle 0 (Resolved sample_todos)]).

Definition success_instance : Runtime.Instance :=
  Runtime.mkInstance (final_hooks (Resolved sample_todos)) true (Some []) 1 0
    [Loading; Success sample_todos].

(** ** Reading traces *)

(** How many times a trace activates the component. *)
Fixpoint mounts (evs : list Runtime.Event) : nat :=
  match evs with
  | [] => 0
  | Runtime.Mount :: evs' => S (mounts evs')
  | _ :: evs' => mounts evs'
  end.

(** Two instances that differ at most in how often [Loading] was put on
    the screen. *)
Definition agree (i1 i2 : Runtime.Instance) : Prop :=
  Runtime.hooks i1 = Runtime.hooks i2
  ∧ Runtime.mounted i1 = Runtime.mounted i2
  ∧ Runtime.requests i1 = Runtime.requests i2
  ∧ Runtime.awaiting i1 = Runtime.awaiting i2
  ∧ List.filter terminal (Runtime.commits i1)
    = List.filter terminal (Runtime.commits i2).

(** ** Hooks shared by the tutorial components *)
Module Hooks.

(** Whether an effect with a dependency array runs at a commit: at the
    first one, and whenever an entry differs from the previous commit's. *)
Definition effect_due {A} `{EqDecision A}
    (prev : option (list A)) (next : list A) : bool :=
  match prev with
  | None => true
  | Some p => negb (bool_decide (p = next))
  end.

(** The double quote character, for the log lines that contain one. *)
Definition dq : string := String (Ascii.ascii_of_nat 34) EmptyString.

End Hooks.

(** ** [ExampleComponent] of the dependency-array tutorial: three effects,
    one without dependency array, one with [[]], one with [[count]] *)
Module DependencyArray.

(** The two [useState] cells; [count] only ever holds integers. *)
Record State : Type := mkState { count : Z; name : string }.

Global Instance State_eq_dec : EqDecision State.
Proof. solve_decision. Defined.

Definition initial : State := {| count := 0; name := "John" |}.

Definition every_render_line : string :=
  "Effect with no dependencies: runs after every render".
Definition mount_line : string :=
  "Effect with empty dependency array: runs once after the component mounts".
Definition count_line : string :=
  "Effect with dependencies [count]: runs when " +:+ Hooks.dq +:+ "count"
  +:+ Hooks.dq +:+ " changes".

(** The instance: the cells, the dependency arrays the second and third
    effect saw at the last commit, and the console. *)
Record Instance : Type := mkInstance {
  state : State;
  deps_mount : option (list Z);
  deps_count : option (list Z);
  console : list string;
}.

(** A commit runs the effects that are due, in the order they are
    declared. *)
Definition commit (i : Instance) : Instance :=
  let c1 := console i ++ [every_render_line] in
  let c2 := if Hooks.effect_due (deps_mount i) [] then c1 ++ [mount_line] else c1 in
  let c3 := if Hooks.effect_due (deps_count i) [count (state i)]
            then c2 ++ [count_line] else c2 in
  {| state := state i; deps_mount := Some [];
     deps_count := Some [count (state i)]; console := c3 |}.

(** A setter call from an event handler: React renders again unless the
    new value is the one it already has. *)
Definition set_state (s : State) (i : Instance) : Instance :=
  if bool_decide (s = state i) then i
  else commit {| state := s; deps_mount := deps_mount i;
                 deps_count := deps_count i; console := console i |}.

Inductive Event : Type :=
  | IncrementCount   (* the button "Increment Count" *)
  | ChangeName.      (* the button "Change Name" *)

(** The two [onClick] handlers, closed over the rendered cells. *)
Definition on_click (ev : Event) (s : State) : State :=
  match ev with
  | IncrementCount => {| count := count s + 1; name := name s |}
  | ChangeName =>
      {| count := count s;
         name := if bool_decide (name s = "John") then "Jane" else "John" |}
  end.

Definition step (i : Instance) (ev : Event) : Instance :=
  set_state (on_click ev (state i)) i.

Definition mount : Instance :=
  commit {| state := initial; deps_mount := None; deps_count := None;
            console := [] |}.

Definition run (evs : list Event) : Instance := foldl step mount evs.

(** The lines one click adds to the console. *)
Definition lines_of (ev : Event) : list string :=
  match ev with
  | IncrementCount => [every_render_line; count_line]
  | ChangeName => [every_render_line]
  end.

Definition increments (evs : list Event) : nat :=
  length (List.filter (λ ev, match ev with IncrementCount => true | _ => false end) evs).
Definition renames (evs : list Event) : nat :=
  length (List.filter (λ ev, match ev with ChangeName => true | _ => false end) evs).

End DependencyArray.

(** ** The cleanup tutorial: [App] showing or hiding an [ExampleComponent]
    that starts an interval *)
Module Cleanup.

Definition running_line : string := "Interval is running...".
Definition cleared_line : string := "Interval cleared.".

(** The part of the browser the components touch: the intervals that are
    active, the id the next timer gets, and the console. *)
Record Browser : Type := mkBrowser {
  timers : gset nat;
  next_timer : nat;
  console : list string;
}.

Definition setInterval (b : Browser) : nat * Browser :=
  (next_timer b,
   {| timers := {[next_timer b]} ∪ timers b;
      next_timer := S (next_timer b);
      console := console b |}).

Definition clearInterval (interval : nat) (b : Browser) : Browser :=
  {| timers := timers b ∖ {[interval]};
     next_timer := next_timer b;
     console := console b |}.

Definition log (line : string) (b : Browser) : Browser :=
  {| timers := timers b; next_timer := next_timer b;
     console := console b ++ [line] |}.

(** What the effect of a component does when it runs, and the cleanup
    function it returns, if it returns one. *)
Definition Effect : Type := Browser → Browser * option (Browser → Browser).

(** The effect of [ExampleComponent] with its cleanup function. *)
Definition with_cleanup : Effect :=
  λ b, let '(interval, b') := setInterval b in
       (b', Some (λ b, log cleared_line (clearInterval interval b))).

(** The effect of the [ExampleComponent] that misses the cleanup. *)
Definition without_cleanup : Effect :=
  λ b, let '(interval, b') := setInterval b in (b', None).

(** [App]: its cell, the cleanup of the child if the child is mounted,
    and the browser. *)
Record App : Type := mkApp {
  showExample : bool;
  child : option (option (Browser → Browser));
  browser : Browser;
}.

Inductive Event : Type :=
  | Click    (* the button of [App] *)
  | Tick.    (* one period of the intervals goes by *)

(** [{showExample && <ExampleComponent />}] after the cell has changed:
    the child is mounted and its effect runs, or it is unmounted and its
    cleanup runs. *)
Definition reconcile (effect : Effect) (show : bool) (a : App) : App :=
  if show then
    let '(b', cleanup) := effect (browser a) in
    {| showExample := true; child := Some cleanup; browser := b' |}
  else
    {| showExample := false; child := None;
       browser := match child a with
                  | Some (Some cleanup) => cleanup (browser a)
                  | _ => browser a
                  end |}.

(** Every active interval logs its line once. *)
Definition tick (b : Browser) : Browser :=
  {| timers := timers b; next_timer := next_timer b;
     console := console b ++ replicate (size (timers b)) running_line |}.

Definition step (effect : Effect) (a : App) (ev : Event) : App :=
  match ev with
  | Click => reconcile effect (negb (showExample a)) a   (* setShowExample(!showExample) *)
  | Tick => {| showExample := showExample a; child := child a;
               browser := tick (browser a) |}
  end.

(** [App] right after it has been mounted: [useState(true)]. *)
Definition start (effect : Effect) : App :=
  reconcile effect true
    {| showExample := true; child := None;
       browser := {| timers := ∅; next_timer := 1; console := [] |} |}.

Definition run (effect : Effect) (evs : list Event) : App :=
  foldl (step effect) (start effect) evs.

Definition clicks (evs : list Event) : nat :=
  length (List.filter (λ ev, match ev with Click => true | _ => false end) evs).

End Cleanup.

(** ** The [useState] tutorial: setter calls inside one event handler *)
Module StateUpdates.

(** What a call of a setter puts in the queue of its cell: a value, or a
    function of the previous value. *)
Inductive Action (A : Type) : Type :=
  | Value (v : A)
  | Updater (f : A → A).
Arguments Value {A} v.
Arguments Updater {A} f.

(** At the next render React runs the queue over the value of the cell. *)
Definition reduce {A} (s : A) (q : list (Action A)) : A :=
  foldl (λ s a, match a with Value v => v | Updater f => f s end) s q.

(** [incrementTwice] of "Mistake 4", closed over the rendered [count]:
    [setCount(count + 1); setCount(count + 1)]. *)
Definition incrementTwice_stale (count : Z) : list (Action Z) :=
  [Value (count + 1)%Z; Value (count + 1)%Z].

(** [incrementTwice] of its solution: two functional updates. *)
Definition incrementTwice (count : Z) : list (Action Z) :=
  [Updater (λ prevCount, prevCount + 1)%Z;
   Updater (λ prevCount, prevCount + 1)%Z].

(** [handleClick] of "Mistake 1": [setCount(count + 1); console.log(count)].
    The second component is what it logs. *)
Definition handleClick (count : Z) : list (Action Z) * list Z :=
  ([Value (count + 1)%Z], [count]).

(** A click: the handler of the current render runs, then React renders
    with the reduced queue. *)
Definition click (handler : Z → list (Action Z)) (count : Z) : Z :=
  reduce count (handler count).

(** [n] clicks on a component mounted with [useState(0)]. *)
Definition clicks (handler : Z → list (Action Z)) (n : nat) : Z :=
  Nat.iter n (click handler) 0%Z.

(** The same for a handler that logs: the cell and the console. *)
Definition logged_clicks (handler : Z → list (Action Z) * list Z) (n : nat)
    : Z * list Z :=
  Nat.iter n (λ st, (reduce st.1 (handler st.1).1, st.2 ++ (handler st.1).2))
    (0%Z, []).

End StateUpdates.

(** ** The caching example: [ExampleComponent] keeping its data in
    [localStorage] *)
Module Caching.

(** The only entry of [localStorage] the component uses. *)
Definition key : string := "cachedData".

Section JSON.
(** The values the API returns, with [JSON.stringify] and [JSON.parse]
    ([None] where [JSON.parse] throws). *)
Context {Data : Type}.
Variable stringify : Data → string.
Variable parse : string → option Data.
(** Whether React accepts the value as the child of [<p>{data}</p>]: a
    string, a number, a boolean, [null] or an array of these it does; on a
    plain object the render throws. *)
Variable renderable : Data → bool.

(** How [fetchData()] settles. *)
Inductive Fetched : Type :=
  | Returned (responseData : Data)
  | Failed (error : Error).

(** One activation of the component: the [data] cell ([None] is the
    initial [null]), whether it is still mounted, whether its request is
    in flight, and whether its effect or its render threw; React removes
    an instance that throws, there being no error boundary. *)
Record Instance : Type := mkInstance {
  data : option Data;
  mounted : bool;
  awaiting : bool;
  threw : bool;
}.

Record World : Type := mkWorld {
  storage : gmap string string;   (* localStorage *)
  instances : list Instance;
  requests : nat;                 (* calls of [fetchData] *)
  errors : list Error;            (* what [console.error] received *)
}.

Inductive Event : Type :=
  | Activate
  | Deactivate (k : nat)
  | Settle (k : nat) (r : Fetched).

Definition fetching : Instance :=
  {| data := None; mounted := true; awaiting := true; threw := false |}.

(** The effect, run once after the first commit: use the cached string if
    there is a non-empty one, else call [fetchData].  [setData] of the
    parsed value is followed by a render, which throws on a value that
    is not [renderable]. *)
Definition effect (st : gmap string string) : Instance :=
  match st !! key with
  | Some cachedData =>
      if bool_decide (cachedData = "") then fetching
      else match parse cachedData with
           | Some d => {| data := Some d; mounted := renderable d;
                          awaiting := false; threw := negb (renderable d) |}
           | None => {| data := None; mounted := false;
                        awaiting := false; threw := true |}
           end
  | None => fetching
  end.

(** The [.then] callback: [setData(responseData)], dropped by React if
    the instance is gone, followed by [localStorage.setItem].  The update
    is batched (React 18): the render it causes comes after the callback
    has returned, and throws on a value that is not [renderable]. *)
Definition on_returned (responseData : Data) (i : Instance) : Instance :=
  if mounted i then
    {| data := Some responseData; mounted := renderable responseData;
       awaiting := false; threw := negb (renderable responseData) |}
  else
    {| data := data i; mounted := false; awaiting := false;
       threw := threw i |}.

Definition on_failed (i : Instance) : Instance :=
  {| data := data i; mounted := mounted i; awaiting := false;
     threw := threw i |}.

Definition deactivate (i : Instance) : Instance :=
  {| data := data i; mounted := false; awaiting := awaiting i;
     threw := threw i |}.

Definition step (w : World) (ev : Event) : option World :=
  match ev with
  | Activate =>
      let i := effect (storage w) in
      Some {| storage := storage w;
              instances := instances w ++ [i];
              requests := requests w + (if awaiting i then 1 else 0);
              errors := errors w |}
  | Deactivate k =>
      i ← instances w !! k;
      if mounted i then
        Some {| storage := storage w;
                instances := <[k := deactivate i]> (instances w);
                requests := requests w; errors := errors w |}
      else None
  | Settle k r =>
      i ← instances w !! k;
      if awaiting i then
        match r with
        | Returned responseData =>
            Some {| storage := <[key := stringify responseData]> (storage w);
                    instances := <[k := on_returned responseData i]> (instances w);
                    requests := requests w; errors := errors w |}
        | Failed error =>
            Some {| storage := storage w;
                    instances := <[k := on_failed i]> (instances w);
                    requests := requests w; errors := errors w ++ [error] |}
        end
      else None
  end.

Fixpoint run (w : World) (evs : list Event) : option World :=
  match evs with
  | [] => Some w
  | ev :: evs' => w' ← step w ev; run w' evs'
  end.

(** No request is in flight. *)
Definition quiet (w : World) : Prop :=
  Forall (λ i, awaiting i = false) (instances w).

(** What holds from the moment the cache holds the non-empty string [s]
    and nothing is in flight; [n0] is the number of instances at that
    moment. *)
Definition cache_final (n0 : nat) (s : string) (w : World) : Prop :=
  storage w !! key = Some s
  ∧ quiet w
  ∧ n0 ≤ length (instances w)
  ∧ ∀ k i, instances w !! k = Some i → n0 ≤ k →
           data i = parse s
           ∧ threw i = match parse s with
                       | Some d => negb (renderable d)
                       | None => true
                       end
           ∧ (mounted i = true → ∃ d, parse s = Some d ∧ renderable d = true).

End JSON.

Arguments Returned {Data} responseData.
Arguments Failed {Data} error.
Arguments Activate {Data}.
Arguments Deactivate {Data} k.
Arguments Settle {Data} k r.

End Caching.

(** ** The debouncing hook of the [useState] tutorial: [useDebounce] and
    the [App] that feeds it the content of its input *)
Module Debounce.

(** A pending [setTimeout]: its id, the time it is due, and the [value]
    its callback will hand to [setDebouncedValue]. *)
Record Timer : Type := mkTimer {
  timer_id : nat;
  due : nat;
  payload : string;
}.

Record World : Type := mkWorld {
  now : nat;                        (* milliseconds *)
  mounted : bool;
  value : string;                   (* the cell of [App] *)
  debouncedValue : string;          (* the cell of [useDebounce] *)
  handler : option nat;             (* [handler.current]; [None] is [null] *)
  deps : option (string * nat);     (* [[value, delay]] at the last commit *)
  timers : list Timer;              (* pending, in creation order *)
  next_timer : nat;
}.

Inductive Event : Type :=
  | Input (v : string)   (* [handleChange] with [event.target.value = v] *)
  | Tick                 (* one millisecond goes by *)
  | Unmount.

Definition clearTimeout (id : nat) (w : World) : World :=
  {| now := now w; mounted := mounted w; value := value w;
     debouncedValue := debouncedValue w; handler := handler w;
     deps := deps w;
     timers := List.filter (λ t, negb (Nat.eqb (timer_id t) id)) (timers w);
     next_timer := next_timer w |}.

(** [clearTimeout(handler.current)]; clearing [null] does nothing. *)
Definition clear_handler (w : World) : World :=
  match handler w with
  | Some id => clearTimeout id w
  | None => w
  end.

(** [handler.current = setTimeout(() => setDebouncedValue(value), delay)]. *)
Definition arm (delay : nat) (w : World) : World :=
  {| now := now w; mounted := mounted w; value := value w;
     debouncedValue := debouncedValue w;
     handler := Some (next_timer w);
     deps := deps w;
     timers := timers w ++ [mkTimer (next_timer w) (now w + delay) (value w)];
     next_timer := S (next_timer w) |}.

(** The body of the effect: [if (handler.current) clearTimeout(...)], a
    timer id being truthy unless it is [0], then arm a new timer. *)
Definition effect (delay : nat) (w : World) : World :=
  let w' := match handler w with
            | Some id => if Nat.eqb id 0 then w else clearTimeout id w
            | None => w
            end in
  arm delay w'.

(** A commit of [App]: the effect of [useDebounce] runs if [value] or
    [delay] changed, after the cleanup of its previous run. *)
Definition commit (delay : nat) (w : World) : World :=
  let next := (value w, delay) in
  let w' := {| now := now w; mounted := mounted w; value := value w;
               debouncedValue := debouncedValue w; handler := handler w;
               deps := Some next; timers := timers w;
               next_timer := next_timer w |} in
  match deps w with
  | None => effect delay w'
  | Some prev =>
      if bool_decide (prev = next) then w'
      else effect delay (clear_handler w')
  end.

(** [setValue(v)]: nothing happens if [v] is the value the cell has. *)
Definition input (delay : nat) (v : string) (w : World) : World :=
  if bool_decide (v = value w) then w
  else commit delay
         {| now := now w; mounted := mounted w; value := v;
            debouncedValue := debouncedValue w; handler := handler w;
            deps := deps w; timers := timers w;
            next_timer := next_timer w |}.

(** The callback of a timer: [setDebouncedValue(value)] with the [value]
    of the render that armed it, followed by a commit if the cell
    changed. *)
Definition fire (delay : nat) (w : World) (t : Timer) : World :=
  if bool_decide (payload t = debouncedValue w) then w
  else commit delay
         {| now := now w; mounted := mounted w; value := value w;
            debouncedValue := payload t; handler := handler w;
            deps := deps w; timers := timers w;
            next_timer := next_timer w |}.

(** A millisecond goes by: the timers that are due leave the list and
    their callbacks run, oldest first. *)
Definition tick (delay : nat) (w : World) : World :=
  let t1 := S (now w) in
  let ready := List.filter (λ t, Nat.leb (due t) t1) (timers w) in
  let rest := List.filter (λ t, negb (Nat.leb (due t) t1)) (timers w) in
  foldl (fire delay)
    {| now := t1; mounted := mounted w; value := value w;
       debouncedValue := debouncedValue w; handler := handler w;
       deps := deps w; timers := rest; next_timer := next_timer w |}
    ready.

(** The cleanup at unmount: [clearTimeout(handler.current)]. *)
Definition unmount (w : World) : World :=
  let w' := clear_handler w in
  {| now := now w'; mounted := false; value := value w';
     debouncedValue := debouncedValue w'; handler := handler w';
     deps := deps w'; timers := timers w'; next_timer := next_timer w' |}.

Definition step (delay : nat) (w : World) (ev : Event) : World :=
  match ev with
  | Input v => if mounted w then input delay v w else w
  | Tick => tick delay w
  | Unmount => if mounted w then unmount w else w
  end.

(** [App] at mount: [useState("")], [useState(value)], [useRef(null)],
    then the first commit. *)
Definition start (delay : nat) : World :=
  commit delay
    {| now := 0; mounted := true; value := ""; debouncedValue := "";
       handler := None; deps := None; timers := []; next_timer := 1 |}.

Definition run (delay : nat) (evs : list Event) : World :=
  foldl (step delay) (start delay) evs.

(** What holds of a mounted [App] between events: the last commit saw the
    current [value], and either no timer is pending and the debounced
    value has caught up, or exactly one is, armed for the current [value]
    and due within [delay]. *)
Definition settled_or_armed (delay : nat) (w : World) : Prop :=
  deps w = Some (value w, delay)
  ∧ 0 < next_timer w
  ∧ ((timers w = [] ∧ debouncedValue w = value w)
     ∨ ∃ t, timers w = [t] ∧ payload t = value w
            ∧ handler w = Some (timer_id t) ∧ timer_id t ≠ 0
            ∧ due t ≤ now w + delay).

(** The invariant: an unmounted [App] has no timer left. *)
Definition inv (delay : nat) (w : World) : Prop :=
  if mounted w then settled_or_armed delay w else timers w = [].

End Debounce.

(** ** [MyComponent] of the [useEffect] tutorial ("Mistake 1"): the full
    name kept in a cell by an effect, and the full name computed while
    rendering *)
Module DerivedState.

(** What one commit shows: the two inputs and the paragraph. *)
Record Screen : Type := mkScreen {
  shown_first : string;
  shown_last : string;
  shown_full : string;
}.

(** [`${firstName} ${lastName}`]. *)
Definition full_name (firstName lastName : string) : string :=
  firstName +:+ " " +:+ lastName.

Inductive Event : Type :=
  | TypeFirst (s : string)   (* [onChange] of the first input *)
  | TypeLast (s : string).   (* [onChange] of the second input *)

(** *** With the effect *)

Record Instance : Type := mkInstance {
  firstName : string;
  lastName : string;
  fullName : string;
  deps : option (list string);   (* [[firstName, lastName]] at the last commit *)
  screens : list Screen;
}.

Definition show (i : Instance) : Instance :=
  {| firstName := firstName i; lastName := lastName i;
     fullName := fullName i;
     deps := Some [firstName i; lastName i];
     screens := screens i
                ++ [mkScreen (firstName i) (lastName i) (fullName i)] |}.

(** A commit, the effect if it is due, and the commits that its
    [setFullName] causes in turn; [fuel] bounds their number. *)
Fixpoint commit (fuel : nat) (i : Instance) : Instance :=
  let i' := show i in
  if Hooks.effect_due (deps i) [firstName i; lastName i] then
    let full := full_name (firstName i) (lastName i) in
    if bool_decide (full = fullName i) then i'
    else match fuel with
         | 0 => i'
         | S fuel' =>
             commit fuel'
               {| firstName := firstName i'; lastName := lastName i';
                  fullName := full; deps := deps i';
                  screens := screens i' |}
         end
  else i'.

Definition step (fuel : nat) (i : Instance) (ev : Event) : Instance :=
  match ev with
  | TypeFirst s =>
      if bool_decide (s = firstName i) then i
      else commit fuel {| firstName := s; lastName := lastName i;
                          fullName := fullName i; deps := deps i;
                          screens := screens i |}
  | TypeLast s =>
      if bool_decide (s = lastName i) then i
      else commit fuel {| firstName := firstName i; lastName := s;
                          fullName := fullName i; deps := deps i;
                          screens := screens i |}
  end.

(** [useState("")] three times, then the first commit. *)
Definition mount (fuel : nat) : Instance :=
  commit fuel {| firstName := ""; lastName := ""; fullName := "";
                 deps := None; screens := [] |}.

Definition run (fuel : nat) (evs : list Event) : Instance :=
  foldl (step fuel) (mount fuel) evs.

(** *** Without the effect: [const fullName = ...] in the body *)

Record Plain : Type := mkPlain {
  plain_first : string;
  plain_last : string;
  plain_screens : list Screen;
}.

Definition plain_commit (p : Plain) : Plain :=
  {| plain_first := plain_first p; plain_last := plain_last p;
     plain_screens :=
       plain_screens p
       ++ [mkScreen (plain_first p) (plain_last p)
             (full_name (plain_first p) (plain_last p))] |}.

Definition plain_step (p : Plain) (ev : Event) : Plain :=
  match ev with
  | TypeFirst s =>
      if bool_decide (s = plain_first p) then p
      else plain_commit {| plain_first := s; plain_last := plain_last p;
                           plain_screens := plain_screens p |}
  | TypeLast s =>
      if bool_decide (s = plain_last p) then p
      else plain_commit {| plain_first := plain_first p; plain_last := s;
                           plain_screens := plain_screens p |}
  end.

Definition plain_mount : Plain :=
  plain_commit {| plain_first := ""; plain_last := ""; plain_screens := [] |}.

Definition plain_run (evs : list Event) : Plain :=
  foldl plain_step plain_mount evs.

(** The screens of the version without the effect, each preceded by a
    screen with the same inputs and the full name shown before it;
    [prev] is the paragraph before the first of them. *)
Fixpoint interleave (prev : string) (l : list Screen) : list Screen :=
  match l with
  | [] => []
  | s :: rest =>
      mkScreen (shown_first s) (shown_last s) prev
      :: s :: interleave (shown_full s) rest
  end.

(** The two versions side by side: same inputs, the cell holds the
    computed full name, the last commit saw the current inputs, and the
    version with the effect has committed every screen of the other one
    preceded by a screen with the full name of before. *)
Definition in_step (i : Instance) (p : Plain) : Prop :=
  firstName i = plain_first p
  ∧ lastName i = plain_last p
  ∧ fullName i = full_name (firstName i) (lastName i)
  ∧ deps i = Some [firstName i; lastName i]
  ∧ last (screens i) = last (plain_screens p)
  ∧ length (screens i) = 2 * length (plain_screens p).

End DerivedState.

(** ** [MyComponent] of the [useEffect] tutorial ("Mistake 2"): an object
    in the dependency array, built anew at every render or kept by
    [useMemo] *)
Module ReferentialDeps.

Record Cells : Type := mkCells { name : string; age : Z; darkMode : bool }.

Global Instance Cells_eq_dec : EqDecision Cells.
Proof. solve_decision. Defined.

Definition initial : Cells :=
  {| name := "John Doe"; age := 25; darkMode := false |}.

Inductive Event : Type :=
  | TypeName (s : string)   (* [setName(e.target.value)] *)
  | TypeAge (n : Z)         (* [setAge(Number(e.target.value))] *)
  | ToggleDark.             (* [setDarkMode(!darkMode)] *)

(** Objects are known by their reference: the [n]-th object created has
    reference [n].  The instance keeps the cells, the number of objects
    created, what [useMemo] holds (its dependencies [[age, name]] and the
    object), the [person] the effect saw at the last commit, and the
    console, where a logged [person] appears as its age and name. *)
Record Instance : Type := mkInstance {
  cells : Cells;
  next_ref : nat;
  memo : option ((Z * string) * nat);
  dep : option (list nat);
  console : list (Z * string);
}.

(** [const person = { age, name }]: a new object at every render. *)
Definition person_plain (i : Instance) : nat * Instance :=
  (next_ref i,
   {| cells := cells i; next_ref := S (next_ref i); memo := memo i;
      dep := dep i; console := console i |}).

(** [const person = useMemo(() => ({ age, name }), [age, name])]. *)
Definition person_memo (i : Instance) : nat * Instance :=
  let d := (age (cells i), name (cells i)) in
  match memo i with
  | Some (d0, r) =>
      if bool_decide (d0 = d) then (r, i)
      else (next_ref i,
            {| cells := cells i; next_ref := S (next_ref i);
               memo := Some (d, next_ref i); dep := dep i;
               console := console i |})
  | None =>
      (next_ref i,
       {| cells := cells i; next_ref := S (next_ref i);
          memo := Some (d, next_ref i); dep := dep i;
          console := console i |})
  end.

(** A render followed by [useEffect(() => console.log(person), [person])],
    the dependency being compared by reference. *)
Definition commit (person : Instance → nat * Instance) (i : Instance)
    : Instance :=
  let '(r, i') := person i in
  {| cells := cells i'; next_ref := next_ref i'; memo := memo i';
     dep := Some [r];
     console := if Hooks.effect_due (dep i') [r]
                then console i' ++ [(age (cells i'), name (cells i'))]
                else console i' |}.

Definition on_event (ev : Event) (c : Cells) : Cells :=
  match ev with
  | TypeName s => {| name := s; age := age c; darkMode := darkMode c |}
  | TypeAge n => {| name := name c; age := n; darkMode := darkMode c |}
  | ToggleDark => {| name := name c; age := age c; darkMode := negb (darkMode c) |}
  end.

Definition step (person : Instance → nat * Instance) (i : Instance)
    (ev : Event) : Instance :=
  let c := on_event ev (cells i) in
  if bool_decide (c = cells i) then i
  else commit person {| cells := c; next_ref := next_ref i; memo := memo i;
                        dep := dep i; console := console i |}.

Definition mount (person : Instance → nat * Instance) : Instance :=
  commit person {| cells := initial; next_ref := 0; memo := None;
                   dep := None; console := [] |}.

Definition run (person : Instance → nat * Instance) (evs : list Event)
    : Instance :=
  foldl (step person) (mount person) evs.

Definition toggles (evs : list Event) : nat :=
  length (List.filter (λ ev, match ev with ToggleDark => true | _ => false end) evs).

(** The two versions side by side. *)
Definition alike (evs : list Event) (a b : Instance) : Prop :=
  cells a = cells b
  ∧ (∃ r, dep a = Some [r] ∧ r < next_ref a)
  ∧ (∃ r, dep b = Some [r] ∧ r < next_ref b
          ∧ memo b = Some ((age (cells b), name (cells b)), r))
  ∧ last (console a) = Some (age (cells a), name (cells a))
  ∧ last (console b) = Some (age (cells b), name (cells b))
  ∧ length (console a) = length (console b) + toggles evs.

End ReferentialDeps.

(** ** [App] of the [useState] tutorial ("Mistake 2"): the [user] object
    changed in place, or replaced by a copy *)
Module Mutation.

Record User : Type := mkUser { name : string; age : Z }.

(** The objects by reference, the [user] cell (a reference) and what has
    been committed to the screen: the name and the age of the paragraph. *)
Record Instance : Type := mkInstance {
  heap : gmap nat User;
  next_ref : nat;
  user : nat;
  screens : list (string * Z);
}.

Inductive Event : Type :=
  | Click      (* the button "Update Age" *)
  | Rerender.  (* the parent renders [App] again *)

(** [<p>{user.name} is {user.age} years old</p>]. *)
Definition commit (i : Instance) : Instance :=
  {| heap := heap i; next_ref := next_ref i; user := user i;
     screens := screens i
                ++ match heap i !! user i with
                   | Some u => [(name u, age u)]
                   | None => []
                   end |}.

(** [user.age = 26; setUser(user)]: the object is changed in place and
    the cell gets the reference it already has, so React does not render. *)
Definition updateAge_in_place (i : Instance) : Instance :=
  {| heap := alter (λ u, {| name := name u; age := 26 |}) (user i) (heap i);
     next_ref := next_ref i; user := user i; screens := screens i |}.

(** [setUser((prevUser) => ({ ...prevUser, age: 26 }))]: a new object, a
    new reference in the cell, a render. *)
Definition updateAge (i : Instance) : Instance :=
  match heap i !! user i with
  | Some prevUser =>
      commit {| heap := <[next_ref i := {| name := name prevUser; age := 26 |}]>
                          (heap i);
                next_ref := S (next_ref i); user := next_ref i;
                screens := screens i |}
  | None => i
  end.

Definition step (handler : Instance → Instance) (i : Instance) (ev : Event)
    : Instance :=
  match ev with
  | Click => handler i
  | Rerender => commit i
  end.

(** [useState({ name: "Alice", age: 25 })] and the first commit. *)
Definition mount : Instance :=
  commit {| heap := {[0 := {| name := "Alice"; age := 25 |}]};
            next_ref := 1; user := 0; screens := [] |}.

Definition run (handler : Instance → Instance) (evs : list Event) : Instance :=
  foldl (step handler) mount evs.

End Mutation.

(** ** The refetching example: [ExampleComponent] asking the API again
    every five seconds *)
Module Polling.

(** How a call of [fetchData] ends: [response.json()] gives the data, or
    the request fails. *)
Inductive Fetched : Type :=
  | Returned (jsonData : string)
  | Failed (e : Error).

Record World : Type := mkWorld {
  mounted : bool;
  interval : bool;          (* the interval of the effect is active *)
  data : option string;     (* the cell; [None] is [null] *)
  next_request : nat;       (* calls of [fetchData] so far *)
  inflight : gset nat;      (* the calls that have not ended *)
  unhandled : list Error;   (* rejected promises nobody handles *)
}.

Inductive Event : Type :=
  | Period                          (* five seconds go by *)
  | Settle (id : nat) (r : Fetched) (* call [id] of [fetchData] ends *)
  | Unmount.

(** A call of [fetchData], up to its first [await]. *)
Definition fetchData (w : World) : World :=
  {| mounted := mounted w; interval := interval w; data := data w;
     next_request := S (next_request w);
     inflight := {[next_request w]} ∪ inflight w;
     unhandled := unhandled w |}.

(** The end of a call: [setData(jsonData)], which React drops if the
    instance is gone; there is no [try] and nobody awaits the promise, so
    a failure is an unhandled rejection. *)
Definition resume (id : nat) (r : Fetched) (w : World) : World :=
  {| mounted := mounted w; interval := interval w;
     data := match r with
             | Returned jsonData => if mounted w then Some jsonData else data w
             | Failed _ => data w
             end;
     next_request := next_request w;
     inflight := inflight w ∖ {[id]};
     unhandled := match r with
                  | Returned _ => unhandled w
                  | Failed e => unhandled w ++ [e]
                  end |}.

Definition step (w : World) (ev : Event) : option World :=
  match ev with
  | Period => Some (if interval w then fetchData w else w)
  | Settle id r =>
      if bool_decide (id ∈ inflight w) then Some (resume id r w) else None
  | Unmount =>
      if mounted w then
        (* the cleanup: [clearInterval(interval)] *)
        Some {| mounted := false; interval := false; data := data w;
                next_request := next_request w; inflight := inflight w;
                unhandled := unhandled w |}
      else None
  end.

(** [useState(null)]; the effect calls [fetchData] and starts the
    interval. *)
Definition start : World :=
  fetchData {| mounted := true; interval := true; data := None;
               next_request := 0; inflight := ∅; unhandled := [] |}.

Fixpoint run (w : World) (evs : list Event) : option World :=
  match evs with
  | [] => Some w
  | ev :: evs' => w' ← step w ev; run w' evs'
  end.

(** The events up to the unmount. *)
Fixpoint live (evs : list Event) : list Event :=
  match evs with
  | [] => []
  | Unmount :: _ => []
  | ev :: evs' => ev :: live evs'
  end.

Definition periods (evs : list Event) : nat :=
  length (List.filter (λ ev, match ev with Period => true | _ => false end) evs).

(** The data of the responses, and the errors of the failures, in the
    order they arrive. *)
Definition arrived (evs : list Event) : list string :=
  omap (λ ev, match ev with Settle _ (Returned d) => Some d | _ => None end) evs.

Definition failures (evs : list Event) : list Error :=
  omap (λ ev, match ev with Settle _ (Failed e) => Some e | _ => None end) evs.

End Polling.

(** ** More sample data *)

Definition sample_trace : list Runtime.Event :=
  [Runtime.Mount; Runtime.Settle 0 (Resolved sample_todos);
   Runtime.Unmount 0; Runtime.Mount].

(** React renders a boolean child as nothing. *)
Definition bool_renderable (b : bool) : bool := true.

(** JSON for the two booleans. *)
Definition json_of_bool (b : bool) : string :=
  if b then "true" else "false".

Definition bool_of_json (s : string) : option bool :=
  if bool_decide (s = "true") then Some true
  else if bool_decide (s = "false") then Some false
  else None.

(** A storage without the entry, and one that holds it. *)
Definition no_cache_world : Caching.World (Data := bool) :=
  Caching.mkWorld ∅ [] 0 [].

Definition cached_world : Caching.World (Data := bool) :=
  Caching.mkWorld {[Caching.key := "true"%string]} [] 0 [].

Definition cached_trace : list (Caching.Event (Data := bool)) :=
  [Caching.Activate; Caching.Activate; Caching.Deactivate 0].

(** Typing "a", then "ab" a millisecond later. *)
Definition typing_trace : list Debounce.Event :=
  [Debounce.Input "a"; Debounce.Tick; Debounce.Input "ab"].

(** Two calls in flight; the second is answered first; a third call fails
    after the unmount. *)
Definition polling_trace : list Polling.Event :=
  [Polling.Period;
   Polling.Settle 1 (Polling.Returned "new");
   Polling.Settle 0 (Polling.Returned "old");
   Polling.Period;
   Polling.Unmount;
   Polling.Period;
   Polling.Settle 2 (Polling.Failed transport_error)].

Definition polling_world : Polling.World :=
  default Polling.start (Polling.run Polling.start polling_trace).

(** * Facts *)

Import Runtime.

Section Facts.
Variable batched : bool.

Lemma fetchTodos_resolved d :
  UseEff.fetchTodos (Resolved d)
  = ([UseEff.setTodos d; UseEff.setLoading false], inr tt).
Proof. reflexivity. Qed.

Lemma fetchTodos_rejected e :
  UseEff.fetchTodos (Rejected e)
  = ([UseEff.setError (Some e); UseEff.setLoading false], inr tt).
Proof. reflexivity. Qed.

(** [fetchTodos] never throws. *)
Lemma fetchTodos_completes r : Async.completion (UseEff.fetchTodos r) = inr tt.
Proof. by destruct r. Qed.

Lemma resume_unhandled r i : (resume batched r i).2 = [].
Proof. unfold resume. by rewrite fetchTodos_completes. Qed.

(** Nothing a setter call does reaches an unmounted instance. *)
Lemma dispatch_unmounted i c : mounted i = false → dispatch batched i c = i.
Proof. unfold dispatch. by intros ->. Qed.

Lemma foldl_dispatch_unmounted cs i :
  mounted i = false → foldl (dispatch batched) i cs = i.
Proof.
  intros Hm. induction cs as [|c cs IH]; [done|].
  simpl. by rewrite dispatch_unmounted.
Qed.

Lemma resume_unmounted r i :
  mounted i = false → (resume batched r i).1 = settled i.
Proof.
  intros Hm. unfold resume, flush. simpl.
  rewrite foldl_dispatch_unmounted by done. by rewrite Hm.
Qed.

Lemma renders_initial :
  UseEff.UseEff UseEff.initial = Returns (Div [Text "Loading..."]).
Proof. reflexivity. Qed.

Lemma renders_final r :
  well_formed r = true → ∃ el, UseEff.UseEff (final_hooks r) = Returns el.
Proof. destruct r as [[d|raw]|e]; [eexists; reflexivity|done|by eexists]. Qed.

Lemma throws_final raw :
  UseEff.UseEff (final_hooks (Resolved (NotArray raw)))
  = Throws (mkError "todos.map is not a function").
Proof. reflexivity. Qed.

(** A commit after the first one: the dependency array is [[]] again,
    the effect is skipped. *)
Lemma commit_steady h mo rq aw l el :
  UseEff.UseEff h = Returns el →
  commit (mkInstance h mo (Some []) rq aw l)
  = mkInstance h mo (Some []) rq aw (l ++ [UseEff.view h]).
Proof. intros H. unfold commit. cbn [hooks]. by rewrite H. Qed.

(** A commit of cells the component throws on. *)
Lemma commit_throws h mo ld rq aw l err :
  UseEff.UseEff h = Throws err →
  commit (mkInstance h mo ld rq aw l) = mkInstance h false ld rq aw l.
Proof. intros H. unfold commit. cbn [hooks]. by rewrite H. Qed.

(** The continuation of [fetchTodos] on a mounted instance that is still
    in its initial state. *)
Lemma resume_mounted r rq aw l :
  resume batched r (mkInstance UseEff.initial true (Some []) rq aw l)
  = (mkInstance (final_hooks r) (well_formed r) (Some []) rq (pred aw)
       ((l ++ if batched then [] else [Loading])
        ++ if well_formed r then [spec_view (Settled r)] else []),
     []).
Proof.
  destruct r as [[d|raw]|e], batched; unfold resume, flush; simpl;
    rewrite ?app_nil_r; reflexivity.
Qed.

Lemma view_final_hooks r : UseEff.view (final_hooks r) = spec_view (Settled r).
Proof. by destruct r. Qed.

Lemma inv_pending_eq mo l n :
  l = replicate (S n) Loading →
  inst_inv (mkInstance UseEff.initial mo (Some []) 1 1 l).
Proof. intros ->. constructor. Qed.

Lemma inv_dropped_eq l n :
  l = replicate (S n) Loading →
  inst_inv (mkInstance UseEff.initial false (Some []) 1 0 l).
Proof. intros ->. constructor. Qed.

Lemma inv_settled_eq r mo l n m :
  well_formed r = true →
  l = replicate (S n) Loading ++ replicate (S m) (spec_view (Settled r)) →
  inst_inv (mkInstance (final_hooks r) mo (Some []) 1 0 l).
Proof. intros Hr ->. by constructor. Qed.

Lemma inv_broken_eq raw l n :
  l = replicate (S n) Loading →
  inst_inv (mkInstance (final_hooks (Resolved (NotArray raw))) false
              (Some []) 1 0 l).
Proof. intros ->. constructor. Qed.

Lemma inst_inv_fresh : inst_inv (commit fresh).
Proof. apply (inv_pending 0). Qed.

Lemma inst_inv_commit i : inst_inv i → inst_inv (commit i).
Proof.
  destruct 1 as [n mo|n|r n m mo Hr|raw n].
  - rewrite (commit_steady _ _ _ _ _ _ renders_initial).
    apply (inv_pending_eq _ _ (S n)). by rewrite (replicate_S_end (S n)).
  - rewrite (commit_steady _ _ _ _ _ _ renders_initial).
    apply (inv_dropped_eq _ (S n)). by rewrite (replicate_S_end (S n)).
  - destruct (renders_final r Hr) as [el Hel].
    rewrite (commit_steady _ _ _ _ _ _ Hel).
    apply (inv_settled_eq _ _ _ n (S m)); [done|].
    by rewrite view_final_hooks, (replicate_S_end (S m)), (assoc_L (++)).
  - rewrite (commit_throws _ _ _ _ _ _ _ (throws_final raw)).
    apply inv_broken.
Qed.

Lemma inst_inv_unmount i : inst_inv i → inst_inv (unmount i).
Proof. destruct 1; unfold unmount; simpl; by constructor. Qed.

Lemma inst_inv_resume r i :
  inst_inv i → 0 < awaiting i → inst_inv (resume batched r i).1.
Proof.
  destruct 1 as [n mo|n|r' n m mo Hr'|raw n]; intros Ha; simpl in Ha;
    [|lia..].
  destruct mo.
  - rewrite resume_mounted. cbn [fst pred].
    destruct (well_formed r) eqn:Hr.
    + destruct batched.
      * apply (inv_settled_eq _ _ _ n 0); [done|]. by rewrite app_nil_r.
      * apply (inv_settled_eq _ _ _ (S n) 0); [done|].
        by rewrite (replicate_S_end (S n)).
    + destruct r as [[d|raw]|e]; try done. destruct batched.
      * apply (inv_broken_eq _ _ n). by rewrite !app_nil_r.
      * apply (inv_broken_eq _ _ (S n)).
        by rewrite app_nil_r, (replicate_S_end (S n)).
  - rewrite resume_unmounted by done. apply inv_dropped.
Qed.

(** A commit leaves everything but the screen and the mounted flag, and
    a mounted instance always renders. *)
Lemma commit_form i :
  inst_inv i →
  commit i
  = mkInstance (hooks i) (mounted i) (last_deps i) (requests i) (awaiting i)
      (commits i ++ match UseEff.UseEff (hooks i) with
                    | Returns _ => [UseEff.view (hooks i)]
                    | Throws _ => []
                    end).
Proof.
  destruct 1 as [n mo|n|r n m mo Hr|raw n]; cbn [hooks mounted last_deps
    requests awaiting commits].
  - by rewrite (commit_steady _ _ _ _ _ _ renders_initial).
  - by rewrite (commit_steady _ _ _ _ _ _ renders_initial).
  - destruct (renders_final r Hr) as [el Hel].
    by rewrite (commit_steady _ _ _ _ _ _ Hel), Hel.
  - rewrite (commit_throws _ _ _ _ _ _ _ (throws_final raw)), throws_final.
    by rewrite app_nil_r.
Qed.

Lemma mounted_renders i :
  inst_inv i → mounted i = true → ∃ el, UseEff.UseEff (hooks i) = Returns el.
Proof.
  destruct 1 as [n mo|n|r n m mo Hr|raw n]; cbn [hooks mounted]; intros Hm.
  - by eexists.
  - done.
  - by apply renders_final.
  - done.
Qed.

Lemma world_inv_empty : world_inv empty.
Proof. split; [constructor|done]. Qed.

Lemma world_inv_step w ev w' :
  world_inv w → step batched w ev = Some w' → world_inv w'.
Proof.
  intros [Hf Hu] Hs. destruct ev as [|k|k|k r]; simpl in Hs.
  - inversion Hs; subst; clear Hs. split; [|done]. simpl.
    apply Forall_app; split; [done|].
    constructor; [apply inst_inv_fresh|constructor].
  - destruct (instances w !! k) as [i|] eqn:Hk; [|done]. simpl in Hs.
    destruct (mounted i); inversion Hs; subst; clear Hs.
    split; [|done]. simpl. apply Forall_insert; [done|].
    apply inst_inv_commit. by eapply Forall_lookup_1.
  - destruct (instances w !! k) as [i|] eqn:Hk; [|done]. simpl in Hs.
    destruct (mounted i); inversion Hs; subst; clear Hs.
    split; [|done]. simpl. apply Forall_insert; [done|].
    apply inst_inv_unmount. by eapply Forall_lookup_1.
  - destruct (instances w !! k) as [i|] eqn:Hk; [|done]. simpl in Hs.
    case_bool_decide as Ha; [|done].
    inversion Hs; subst; clear Hs. split; cbn [instances unhandled].
    + apply Forall_insert; [done|]. apply inst_inv_resume; [|done].
      by eapply Forall_lookup_1.
    + by rewrite fetchTodos_completes, Hu.
Qed.

Lemma world_inv_run evs : ∀ w w',
  world_inv w → run batched w evs = Some w' → world_inv w'.
Proof.
  induction evs as [|ev evs IH]; intros w w' Hw Hr; simpl in Hr.
  - by inversion Hr; subst.
  - destruct (step batched w ev) as [w1|] eqn:Hs; [|done]. simpl in Hr.
    eapply IH; [|done]. by eapply world_inv_step.
Qed.

Lemma reachable_inv w : reachable batched w → world_inv w.
Proof. intros [evs Hr]. eapply world_inv_run; [apply world_inv_empty|done]. Qed.

Lemma reachable_inst w k i :
  reachable batched w → instances w !! k = Some i → inst_inv i.
Proof. intros [Hf _]%reachable_inv Hk. by eapply Forall_lookup_1. Qed.

Lemma run_app evs1 : ∀ evs2 w,
  run batched w (evs1 ++ evs2)
  = w' ← run batched w evs1; run batched w' evs2.
Proof.
  induction evs1 as [|ev evs1 IH]; intros evs2 w; simpl; [done|].
  destruct (step batched w ev) as [w1|]; simpl; [apply IH|done].
Qed.

Lemma reachable_run w evs w' :
  reachable batched w → run batched w evs = Some w' → reachable batched w'.
Proof.
  intros [evs0 H0] Hr. exists (evs0 ++ evs). rewrite run_app, H0. done.
Qed.

(** *** Each event, read backwards *)

Lemma step_Mount w :
  step batched w Mount
  = Some (mkWorld (instances w ++ [commit fresh]) (unhandled w)).
Proof. reflexivity. Qed.

Lemma step_Rerender_Some w k w' :
  step batched w (Rerender k) = Some w' →
  ∃ i, instances w !! k = Some i ∧ mounted i = true
       ∧ w' = mkWorld (<[k := commit i]> (instances w)) (unhandled w).
Proof.
  unfold step. destruct (instances w !! k) as [i|]; [|done].
  cbn [mbind option_bind]. destruct (mounted i) eqn:Hm; [|done].
  intros [= <-]. eauto.
Qed.

Lemma step_Unmount_Some w k w' :
  step batched w (Unmount k) = Some w' →
  ∃ i, instances w !! k = Some i ∧ mounted i = true
       ∧ w' = mkWorld (<[k := unmount i]> (instances w)) (unhandled w).
Proof.
  unfold step. destruct (instances w !! k) as [i|]; [|done].
  cbn [mbind option_bind]. destruct (mounted i) eqn:Hm; [|done].
  intros [= <-]. eauto.
Qed.

Lemma step_Unmount w k i :
  instances w !! k = Some i → mounted i = true →
  step batched w (Unmount k)
  = Some (mkWorld (<[k := unmount i]> (instances w)) (unhandled w)).
Proof. intros Hk Hm. unfold step. rewrite Hk. cbn [mbind option_bind]. by rewrite Hm. Qed.

Lemma step_Settle_Some w k r w' :
  step batched w (Settle k r) = Some w' →
  ∃ i, instances w !! k = Some i ∧ 0 < awaiting i
       ∧ w' = mkWorld (<[k := (resume batched r i).1]> (instances w))
                      (unhandled w).
Proof.
  unfold step. destruct (instances w !! k) as [i|]; [|done].
  cbn [mbind option_bind]. case_bool_decide as Ha; [|done].
  cbv zeta. rewrite resume_unhandled, app_nil_r. intros [= <-]. eauto.
Qed.

Lemma step_Settle w k r i :
  instances w !! k = Some i → 0 < awaiting i →
  step batched w (Settle k r)
  = Some (mkWorld (<[k := (resume batched r i).1]> (instances w))
                  (unhandled w)).
Proof.
  intros Hk Ha. unfold step. rewrite Hk. cbn [mbind option_bind].
  rewrite bool_decide_true by done. cbv zeta.
  by rewrite resume_unhandled, app_nil_r.
Qed.

(** No event records a rejection nobody handled. *)
Lemma step_unhandled w ev w' :
  step batched w ev = Some w' → unhandled w' = unhandled w.
Proof.
  destruct ev as [|k|k|k r].
  - rewrite step_Mount. by intros [= <-].
  - by intros (i & _ & _ & ->)%step_Rerender_Some.
  - by intros (i & _ & _ & ->)%step_Unmount_Some.
  - by intros (i & _ & _ & ->)%step_Settle_Some.
Qed.

Lemma run_unhandled evs : ∀ w w',
  run batched w evs = Some w' → unhandled w' = unhandled w.
Proof.
  induction evs as [|ev evs IH]; intros w w' Hr; simpl in Hr.
  - by inversion Hr.
  - destruct (step batched w ev) as [w1|] eqn:Hs; [|done]. simpl in Hr.
    rewrite (IH _ _ Hr). by eapply step_unhandled.
Qed.

(** *** Instances that no longer change *)

(** An unmounted instance keeps its cells and its screen, whatever
    happens next; only the count of requests in flight can still drop. *)
Lemma step_unmounted w ev w' k i :
  step batched w ev = Some w' →
  instances w !! k = Some i → mounted i = false →
  ∃ i', instances w' !! k = Some i' ∧ hooks i' = hooks i
        ∧ commits i' = commits i ∧ mounted i' = false.
Proof.
  intros Hs Hk Hm. pose proof (lookup_lt_Some _ _ _ Hk) as Hlt.
  destruct ev as [|k'|k'|k' r].
  - rewrite step_Mount in Hs. injection Hs as <-. exists i. cbn [instances].
    by rewrite lookup_app_l.
  - apply step_Rerender_Some in Hs as (i0 & Hk' & Hm' & ->). cbn [instances].
    destruct (decide (k' = k)) as [->|Hne]; [congruence|].
    exists i. by rewrite list_lookup_insert_ne.
  - apply step_Unmount_Some in Hs as (i0 & Hk' & Hm' & ->). cbn [instances].
    destruct (decide (k' = k)) as [->|Hne]; [congruence|].
    exists i. by rewrite list_lookup_insert_ne.
  - apply step_Settle_Some in Hs as (i0 & Hk' & Ha & ->). cbn [instances].
    destruct (decide (k' = k)) as [->|Hne].
    + assert (i0 = i) as -> by congruence.
      rewrite list_lookup_insert_eq by done.
      rewrite resume_unmounted by done. by exists (settled i).
    + exists i. by rewrite list_lookup_insert_ne.
Qed.

Lemma run_unmounted evs : ∀ w w' k i,
  run batched w evs = Some w' →
  instances w !! k = Some i → mounted i = false →
  ∃ i', instances w' !! k = Some i' ∧ hooks i' = hooks i
        ∧ commits i' = commits i ∧ mounted i' = false.
Proof.
  induction evs as [|ev evs IH]; intros w w' k i Hr Hk Hm; simpl in Hr.
  - injection Hr as <-. eauto.
  - destruct (step batched w ev) as [w1|] eqn:Hs; [|done]. simpl in Hr.
    destruct (step_unmounted _ _ _ _ _ Hs Hk Hm) as (i1 & Hk1 & Hh & Hc & Hm1).
    destruct (IH _ _ _ _ Hr Hk1 Hm1) as (i2 & ? & ? & ? & ?).
    exists i2. repeat split; congruence.
Qed.

(** An instance whose request has settled keeps its cells. *)
Lemma step_settled w ev w' k i :
  world_inv w → step batched w ev = Some w' →
  instances w !! k = Some i → awaiting i = 0 →
  ∃ i', instances w' !! k = Some i' ∧ hooks i' = hooks i ∧ awaiting i' = 0.
Proof.
  intros [Hf _] Hs Hk Ha. pose proof (lookup_lt_Some _ _ _ Hk) as Hlt.
  pose proof (Forall_lookup_1 _ _ _ _ Hf Hk) as Hi.
  destruct ev as [|k'|k'|k' r].
  - rewrite step_Mount in Hs. injection Hs as <-. exists i. cbn [instances].
    by rewrite lookup_app_l.
  - apply step_Rerender_Some in Hs as (i0 & Hk' & Hm' & ->). cbn [instances].
    destruct (decide (k' = k)) as [->|Hne].
    + assert (i0 = i) as -> by congruence.
      rewrite list_lookup_insert_eq by done. exists (commit i).
      by rewrite (commit_form _ Hi).
    + exists i. by rewrite list_lookup_insert_ne.
  - apply step_Unmount_Some in Hs as (i0 & Hk' & Hm' & ->). cbn [instances].
    destruct (decide (k' = k)) as [->|Hne].
    + assert (i0 = i) as -> by congruence.
      rewrite list_lookup_insert_eq by done. by exists (unmount i).
    + exists i. by rewrite list_lookup_insert_ne.
  - apply step_Settle_Some in Hs as (i0 & Hk' & Ha' & ->). cbn [instances].
    destruct (decide (k' = k)) as [->|Hne].
    + assert (i0 = i) as -> by congruence. lia.
    + exists i. by rewrite list_lookup_insert_ne.
Qed.

Lemma run_settled evs : ∀ w w' k i,
  world_inv w → run batched w evs = Some w' →
  instances w !! k = Some i → awaiting i = 0 →
  ∃ i', instances w' !! k = Some i' ∧ hooks i' = hooks i ∧ awaiting i' = 0.
Proof.
  induction evs as [|ev evs IH]; intros w w' k i Hw Hr Hk Ha; simpl in Hr.
  - injection Hr as <-. eauto.
  - destruct (step batched w ev) as [w1|] eqn:Hs; [|done]. simpl in Hr.
    destruct (step_settled _ _ _ _ _ Hw Hs Hk Ha) as (i1 & Hk1 & Hh & Ha1).
    destruct (IH _ _ _ _ (world_inv_step _ _ _ Hw Hs) Hr Hk1 Ha1)
      as (i2 & ? & ? & ?).
    exists i2. repeat split; congruence.
Qed.

(** *** Reading the invariant *)

Lemma inst_inv_requests i : inst_inv i → requests i = 1 ∧ awaiting i ≤ 1.
Proof. destruct 1; simpl; lia. Qed.

Lemma inst_inv_loading i :
  inst_inv i → UseEff.view (hooks i) = Loading → hooks i = UseEff.initial.
Proof.
  destruct 1 as [| |r n m mo Hr|raw n]; [done..| |done]. by destruct r.
Qed.

Lemma inst_inv_mounted_loading i :
  inst_inv i → mounted i = true → UseEff.view (hooks i) = Loading →
  awaiting i = 1.
Proof.
  destruct 1 as [| |r n m mo Hr|raw n]; [done..| |done]. by destruct r.
Qed.

Lemma inst_inv_terminal i :
  inst_inv i → terminal (UseEff.view (hooks i)) = true →
  awaiting i = 0 ∧ ∃ r, hooks i = final_hooks r.
Proof. destruct 1 as [| |r n m mo Hr|raw n]; [done..| |]; eauto. Qed.

Lemma inst_inv_awaiting i :
  inst_inv i → 0 < awaiting i →
  hooks i = UseEff.initial ∧ last_deps i = Some [] ∧ requests i = 1
  ∧ awaiting i = 1.
Proof. destruct 1; simpl; intros; try lia; done. Qed.

Lemma inst_inv_log i : inst_inv i → attempt_log (commits i).
Proof.
  destruct 1 as [n mo|n|r n m mo Hr|raw n]; simpl.
  - exists n, 0, (Failure ""). by rewrite app_nil_r.
  - exists n, 0, (Failure ""). by rewrite app_nil_r.
  - exists n, (S m), (spec_view (Settled r)). split; [done|by destruct r].
  - exists n, 0, (Failure ""). by rewrite app_nil_r.
Qed.



(** Settling the request of a mounted instance. *)
Lemma settle_mounted w k i r :
  world_inv w → instances w !! k = Some i → mounted i = true →
  0 < awaiting i →
  ∃ w' i', step batched w (Settle k r) = Some w'
           ∧ instances w' !! k = Some i'
           ∧ hooks i' = final_hooks r ∧ mounted i' = well_formed r
           ∧ requests i' = 1 ∧ awaiting i' = 0
           ∧ unhandled w' = unhandled w.
Proof.
  intros [Hf _] Hk Hm Ha. pose proof (lookup_lt_Some _ _ _ Hk) as Hlt.
  pose proof (Forall_lookup_1 _ _ _ _ Hf Hk) as Hi.
  eexists _, _. split; [by apply step_Settle|]. cbn [instances unhandled].
  split; [by apply list_lookup_insert_eq|].
  destruct Hi as [n mo|n|r' n m mo Hr'|raw n]; cbn [awaiting mounted] in Ha, Hm;
    try lia; try done.
  subst mo. by rewrite resume_mounted.
Qed.

End Facts.

(** * The properties of the specification *)

(** C1.  If an instance is deactivated while it shows [Loading], then the
    late settling of its request is processed without error, and whatever
    happens afterwards the cells of the instance and what it had put on
    the screen stay as they were at deactivation; no rejection goes
    unhandled. *)
Theorem deactivated_while_loading_stays_untouched
    (batched : bool) (w : World) (k : nat) (i : Instance) :
  reachable batched w →
  instances w !! k = Some i →
  mounted i = true →
  UseEff.view (hooks i) = Loading →
  (∀ r, is_Some (run batched w [Unmount k; Settle k r]))
  ∧ (∀ evs w',
       run batched w (Unmount k :: evs) = Some w' →
       ∃ i', instances w' !! k = Some i'
             ∧ hooks i' = hooks i
             ∧ commits i' = commits i
             ∧ mounted i' = false
             ∧ unhandled w' = unhandled w).
Proof.
  intros Hw Hk Hm Hv.
  pose proof (lookup_lt_Some _ _ _ Hk) as Hlt.
  pose proof (reachable_inst _ _ _ _ Hw Hk) as Hi.
  pose proof (inst_inv_mounted_loading _ Hi Hm Hv) as Ha.
  pose proof (step_Unmount batched _ _ _ Hk Hm) as Hu.
  split.
  - intros r. cbn [run]. rewrite Hu. cbn [mbind option_bind].
    erewrite step_Settle; [done| |].
    + cbn [instances]. by apply list_lookup_insert_eq.
    + simpl. lia.
  - intros evs w' Hr. cbn [run] in Hr. rewrite Hu in Hr.
    cbn [mbind option_bind] in Hr.
    edestruct (run_unmounted batched evs) as (i' & Hk' & Hh & Hc & Hm');
      [exact Hr| |..].
    + cbn [instances]. by apply list_lookup_insert_eq.
    + done.
    + exists i'. repeat split; try done.
      by rewrite (run_unhandled _ _ _ _ Hr).
Qed.

(** C2.  On the screen of every instance the first view is [Loading],
    every terminal view comes after a [Loading] one, and the views of one
    instance never include both a [Success] and an [Error]. *)
Theorem loading_first_and_one_terminal_kind
    (batched : bool) (w : World) (k : nat) (i : Instance) :
  reachable batched w →
  instances w !! k = Some i →
  head (commits i) = Some Loading
  ∧ (∀ j v, commits i !! j = Some v → terminal v = true →
       ∃ j', j' < j ∧ commits i !! j' = Some Loading)
  ∧ ¬ (∃ d msg, Success d ∈ commits i ∧ Failure msg ∈ commits i).
Proof.
  intros Hw Hk.
  destruct (inst_inv_log _ (reachable_inst _ _ _ _ Hw Hk))
    as (n & m & v & -> & Hv).
  split; [done|]. split.
  - intros j u Hj Hu. exists 0. split; [|done].
    destruct j; [|lia]. simpl in Hj. by injection Hj as <-.
  - intros (d & msg & Hd & He).
    apply elem_of_app in Hd as [Hd|Hd]; [by apply elem_of_replicate_inv in Hd|].
    apply elem_of_app in He as [He|He]; [by apply elem_of_replicate_inv in He|].
    apply elem_of_replicate_inv in Hd, He. congruence.
Qed.

(** C3.  After a successful fetch of [items], [UseEff] returns the list
    section with one row per item, in the order of [items] (row [j] shows
    the title of item [j]) and with the positions [0, 1, ...] as keys,
    which are pairwise distinct; so does [RQuery], whose row [j] shows the
    id and the title of item [j]. *)
Theorem success_renders_items_in_order (batched : bool) (items : list Todo) :
  (∃ w i rows,
      run batched empty [Mount; Settle 0 (Resolved items)] = Some w
      ∧ instances w !! 0 = Some i
      ∧ UseEff.view (hooks i) = Success items
      ∧ UseEff.UseEff (hooks i) = Section_ "useEffect() vs React Query" rows
      ∧ length rows = length items
      ∧ children <$> rows = (λ t, [Text (title t)]) <$> items
      ∧ key <$> rows = seq 0 (length items)
      ∧ NoDup (key <$> rows))
  ∧ (∃ rows,
      RQuery.view (RQuery.useQuery RQuery.fetchTodos (Settled (Resolved items)))
      = Success items
      ∧ RQuery.RQuery (Settled (Resolved items))
        = Section_ "useEffect() vs React Query" rows
      ∧ length rows = length items
      ∧ children <$> rows
        = (λ t, [Num (id t); Text ") "; Text (title t)]) <$> items
      ∧ key <$> rows = seq 0 (length items)
      ∧ NoDup (key <$> rows)).
Proof.
  assert (Hkeys : ∀ (f : Todo → list Child) l n,
             key <$> imap (λ idx item, mkRow (n + idx) (f item)) l
             = seq n (length l)).
  { intros f l. induction l as [|t l IH]; intros n; [done|].
    rewrite imap_cons. cbn [fmap list_fmap length seq key].
    rewrite Nat.add_0_r. f_equal.
    rewrite <- (IH (S n)). f_equal. apply imap_ext. intros j x _.
    simpl. f_equal. lia. }
  assert (Hch : ∀ (f : Todo → list Child) l n,
             children <$> imap (λ idx item, mkRow (n + idx) (f item)) l
             = f <$> l).
  { intros f l. induction l as [|t l IH]; intros n; [done|].
    rewrite imap_cons. cbn [fmap list_fmap children]. f_equal.
    rewrite <- (IH (S n)). f_equal. apply imap_ext. intros j x _.
    simpl. f_equal. lia. }
  split.
  - exists (mkWorld
              [mkInstance (final_hooks (Resolved items)) true (Some []) 1 0
                 (([] ++ [Loading] ++ if batched then [] else [Loading])
                  ++ [Success items])] []),
      (mkInstance (final_hooks (Resolved items)) true (Some []) 1 0
         (([] ++ [Loading] ++ if batched then [] else [Loading])
          ++ [Success items])),
      (UseEff.rows items).
    split; [by destruct batched|]. split; [done|]. split; [done|].
    split; [done|]. unfold UseEff.rows.
    split; [apply length_imap|]. split; [apply (Hch _ items 0)|].
    split; [apply (Hkeys _ items 0)|].
    rewrite (Hkeys _ items 0). apply NoDup_seq.
  - exists (RQuery.rows items). split; [done|]. split; [done|].
    unfold RQuery.rows.
    split; [apply length_imap|]. split; [apply (Hch _ items 0)|].
    split; [apply (Hkeys _ items 0)|].
    rewrite (Hkeys _ items 0). apply NoDup_seq.
Qed.



(** C5.  In a reachable world the cells of an instance are either the
    initial ones or those left by one settled request, its view is exactly
    one of the three variants, and once the view is terminal it is the same
    in every later world. *)
Theorem one_variant_and_terminal_is_final
    (batched : bool) (w : World) (k : nat) (i : Instance) :
  reachable batched w →
  instances w !! k = Some i →
  (hooks i = UseEff.initial ∨ ∃ r, hooks i = final_hooks r)
  ∧ (let v := UseEff.view (hooks i) in
     (is_loading v = true ∧ is_failure v = false ∧ is_success v = false)
     ∨ (is_loading v = false ∧ is_failure v = true ∧ is_success v = false)
     ∨ (is_loading v = false ∧ is_failure v = false ∧ is_success v = true))
  ∧ (∀ evs w',
       run batched w evs = Some w' →
       terminal (UseEff.view (hooks i)) = true →
       ∃ i', instances w' !! k = Some i'
             ∧ UseEff.view (hooks i') = UseEff.view (hooks i)).
Proof.
  intros Hw Hk. pose proof (reachable_inst _ _ _ _ Hw Hk) as Hi.
  split; [|split].
  - destruct Hi; cbn [hooks]; eauto.
  - cbv zeta. destruct (UseEff.view (hooks i)); simpl; auto.
  - intros evs w' Hr Ht.
    destruct (inst_inv_terminal _ Hi Ht) as [Ha _].
    destruct (run_settled batched evs w w' k i) as (i' & Hk' & Hh & _);
      [by apply (reachable_inv batched)|done..|].
    exists i'. by rewrite Hh.
Qed.

(** C6.  After an instance has reached a terminal view, deactivating it and
    activating the component again yields a new instance whose cells are
    the initial ones (so nothing of the previous attempt is in them), which
    shows [Loading] and has issued exactly one request, the only request
    added to the world; once that request settles, the cells are those
    determined by its own response. *)
Theorem reactivation_starts_afresh
    (batched : bool) (w : World) (k : nat) (i : Instance) :
  reachable batched w →
  instances w !! k = Some i →
  mounted i = true →
  terminal (UseEff.view (hooks i)) = true →
  ∃ w' i',
    run batched w [Unmount k; Mount] = Some w'
    ∧ instances w' !! length (instances w) = Some i'
    ∧ hooks i' = UseEff.initial
    ∧ UseEff.view (hooks i') = Loading
    ∧ commits i' = [Loading]
    ∧ requests i' = 1
    ∧ awaiting i' = 1
    ∧ total_requests w' = S (total_requests w)
    ∧ ∀ r, ∃ w'' i'',
        step batched w' (Settle (length (instances w)) r) = Some w''
        ∧ instances w'' !! length (instances w) = Some i''
        ∧ hooks i'' = final_hooks r
        ∧ UseEff.view (hooks i'') = spec_view (Settled r).
Proof.
  intros Hw Hk Hm Ht.
  pose proof (step_Unmount batched _ _ _ Hk Hm) as Hu.
  set (w' := mkWorld (<[k := unmount i]> (instances w) ++ [commit fresh])
                     (unhandled w)).
  assert (run batched w [Unmount k; Mount] = Some w') as Hr.
  { cbn [run]. rewrite Hu. done. }
  assert (instances w' !! length (instances w) = Some (commit fresh)) as Hk'.
  { unfold w'. cbn [instances].
    rewrite lookup_app_r by (by rewrite length_insert).
    by rewrite length_insert, Nat.sub_diag. }
  exists w', (commit fresh). split; [done|]. split; [done|].
  do 5 (split; [done|]). split.
  - unfold total_requests, w'. cbn [instances].
    rewrite fmap_app, sum_list_with_app, list_fmap_insert.
    rewrite list_insert_id by (by rewrite list_lookup_fmap, Hk).
    simpl. lia.
  - intros r.
    destruct (settle_mounted batched w' (length (instances w)) (commit fresh) r)
      as (w'' & i'' & Hs & Hk'' & Hh & _);
      [|done|done|simpl; lia|].
    { apply (reachable_inv batched). by eapply reachable_run. }
    exists w'', i''. rewrite Hh, view_final_hooks. done.
Qed.


(** C8, the spec's sentence refuted.  A response with a success status
    whose body is not an array is a failure of the fetch for the spec, yet
    neither component delivers it as data: [UseEff] stores the body with its
    [error] cell left empty, its render throws and React removes the
    instance; [RQuery] throws in render as well. *)
Lemma malformed_payload_is_raised_in_render :
  ∃ w i,
    run false empty [Mount; Settle 0 malformed_response] = Some w
    ∧ instances w !! 0 = Some i
    ∧ UseEff.error (hooks i) = None
    ∧ UseEff.UseEff (hooks i)
      = Throws (mkError "todos.map is not a function")
    ∧ mounted i = false
    ∧ RQuery.error
        (RQuery.useQuery RQuery.fetchTodos (Settled malformed_response))
      = None
    ∧ RQuery.RQuery (Settled malformed_response)
      = Throws (mkError "data?.map is not a function").
Proof. by eexists _, _. Qed.

(** C8, amended.  On a request that is rejected with [e], [fetchTodos] of
    [UseEff] completes normally; settling the request is a step of the
    runtime that leaves no rejection unhandled and, on a mounted instance,
    stores [e] in the [error] cell, from which the component returns the
    message, the instance staying mounted.  In [RQuery] the query function
    itself throws on that request; once the library has resolved the query
    as failed (as it does when it is configured not to retry), [useQuery]
    hands the failure over in its [error] field and the component returns
    the message. *)
Theorem failure_is_delivered_as_data
    (batched : bool) (w : World) (k : nat) (i : Instance) (e : Error) :
  reachable batched w →
  instances w !! k = Some i →
  0 < awaiting i →
  Async.completion (UseEff.fetchTodos (Rejected e)) = inr tt
  ∧ (∃ w' i',
       step batched w (Settle k (Rejected e)) = Some w'
       ∧ unhandled w' = []
       ∧ instances w' !! k = Some i'
       ∧ (mounted i = true →
          UseEff.error (hooks i') = Some e
          ∧ UseEff.UseEff (hooks i') = Div [Text (message e)]
          ∧ mounted i' = true))
  ∧ Async.completion (RQuery.fetchTodos (Rejected e)) = inl e
  ∧ RQuery.error (RQuery.useQuery RQuery.fetchTodos (Settled (Rejected e)))
    = Some e
  ∧ RQuery.RQuery (Settled (Rejected e)) = Div [Text (message e)]
  ∧ (∀ rest, RQuery.resolution 0 (Rejected e :: rest) = Settled (Rejected e)).
Proof.
  intros Hw Hk Ha. split; [done|]. split; [|done].
  pose proof (lookup_lt_Some _ _ _ Hk) as Hlt.
  destruct (reachable_inv _ _ Hw) as [Hf Hun].
  eexists _, _. split; [by apply step_Settle|]. cbn [instances unhandled].
  split; [done|]. split; [by apply list_lookup_insert_eq|].
  intros Hm. pose proof (Forall_lookup_1 _ _ _ _ Hf Hk) as Hi.
  destruct Hi as [n mo|n|r' n m mo Hr'|raw n]; cbn [awaiting mounted] in Ha, Hm;
    try lia; try done.
  subst mo. by rewrite resume_mounted.
Qed.



(** C10.  In [UseEff] the handler of a failed request calls only [setError]
    and [setLoading]; an instance whose [error] cell is set has its [todos]
    cell still empty; and after the request of an instance has failed its
    [todos] cell is empty. *)
Theorem failed_attempt_keeps_todos_empty
    (batched : bool) (w : World) (k : nat) (i : Instance) :
  reachable batched w →
  instances w !! k = Some i →
  (∀ e, Async.calls (UseEff.fetchTodos (Rejected e))
        = [UseEff.setError (Some e); UseEff.setLoading false])
  ∧ (is_Some (UseEff.error (hooks i)) → UseEff.todos (hooks i) = [])
  ∧ (0 < awaiting i →
     ∀ e, ∃ w' i',
       step batched w (Settle k (Rejected e)) = Some w'
       ∧ instances w' !! k = Some i'
       ∧ UseEff.todos (hooks i') = []
       ∧ (mounted i = true → UseEff.error (hooks i') = Some e)).
Proof.
  intros Hw Hk. pose proof (reachable_inst _ _ _ _ Hw Hk) as Hi.
  pose proof (lookup_lt_Some _ _ _ Hk) as Hlt.
  split; [done|]. split.
  - destruct Hi as [n mo|n|r n m mo Hr|raw n]; simpl.
    + by intros [? [=]].
    + by intros [? [=]].
    + destruct r; simpl; [by intros [? [=]]|done].
    + by intros [? [=]].
  - intros Ha e. eexists _, _. split; [by apply step_Settle|].
    cbn [instances]. split; [by apply list_lookup_insert_eq|].
    destruct Hi as [n mo|n|r n m mo Hr|raw n]; cbn [awaiting] in Ha; try lia.
    destruct mo.
    + by rewrite resume_mounted.
    + by rewrite resume_unmounted.
Qed.

(** * The theorems at the sample scenarios *)

Lemma loading_world_reachable : reachable false loading_world.
Proof. by exists [Mount]. Defined.

Lemma success_world_reachable : reachable true success_world.
Proof. by exists [Mount; Settle 0 (Resolved sample_todos)]. Defined.

(** The component is deactivated while loading and the list arrives late:
    the cells are still the initial ones and the screen log is unchanged. *)
Lemma deactivated_while_loading_stays_untouched_witness :
  (reachable false loading_world
   ∧ instances loading_world !! 0 = Some loading_instance
   ∧ mounted loading_instance = true
   ∧ UseEff.view (hooks loading_instance) = Loading)
  ∧ ∀ w', run false loading_world [Unmount 0; Settle 0 (Resolved sample_todos)]
          = Some w' →
          ∃ i', instances w' !! 0 = Some i'
                ∧ hooks i' = UseEff.initial
                ∧ commits i' = [Loading]
                ∧ mounted i' = false
                ∧ unhandled w' = [].
Proof.
  split; [by repeat split; try apply loading_world_reachable|].
  intros w' Hr.
  exact (proj2 (deactivated_while_loading_stays_untouched
                  false loading_world 0 loading_instance
                  loading_world_reachable eq_refl eq_refl eq_refl)
           [Settle 0 (Resolved sample_todos)] w' Hr).
Defined.

Lemma loading_first_and_one_terminal_kind_witness :
  (reachable true success_world
   ∧ instances success_world !! 0 = Some success_instance)
  ∧ head (commits success_instance) = Some Loading
  ∧ (∀ j v, commits success_instance !! j = Some v → terminal v = true →
       ∃ j', j' < j ∧ commits success_instance !! j' = Some Loading)
  ∧ ¬ (∃ d msg, Success d ∈ commits success_instance
                ∧ Failure msg ∈ commits success_instance).
Proof.
  split; [split; [apply success_world_reachable|reflexivity]|].
  exact (loading_first_and_one_terminal_kind true success_world 0
           success_instance success_world_reachable eq_refl).
Defined.


Lemma one_variant_and_terminal_is_final_witness :
  (reachable true success_world
   ∧ instances success_world !! 0 = Some success_instance)
  ∧ ∀ w', run true success_world [Rerender 0; Unmount 0; Mount] = Some w' →
          ∃ i', instances w' !! 0 = Some i'
                ∧ UseEff.view (hooks i') = Success sample_todos.
Proof.
  split; [split; [apply success_world_reachable|reflexivity]|].
  intros w' Hr.
  exact (proj2 (proj2 (one_variant_and_terminal_is_final true success_world 0
                         success_instance success_world_reachable eq_refl))
           [Rerender 0; Unmount 0; Mount] w' Hr eq_refl).
Defined.

Lemma reactivation_starts_afresh_witness :
  (reachable true success_world
   ∧ instances success_world !! 0 = Some success_instance
   ∧ mounted success_instance = true
   ∧ terminal (UseEff.view (hooks success_instance)) = true)
  ∧ ∃ w' i',
      run true success_world [Unmount 0; Mount] = Some w'
      ∧ instances w' !! 1 = Some i'
      ∧ hooks i' = UseEff.initial
      ∧ requests i' = 1
      ∧ total_requests w' = 2.
Proof.
  split; [by repeat split; try apply success_world_reachable|].
  destruct (reactivation_starts_afresh true success_world 0 success_instance
              success_world_reachable eq_refl eq_refl eq_refl)
    as (w' & i' & Hr & Hk & Hh & _ & _ & Hq & _ & Ht & _).
  exists w', i'. auto.
Defined.


Lemma failure_is_delivered_as_data_witness :
  (reachable false loading_world
   ∧ instances loading_world !! 0 = Some loading_instance
   ∧ 0 < awaiting loading_instance)
  ∧ ∃ w' i',
      step false loading_world (Settle 0 (Rejected transport_error)) = Some w'
      ∧ unhandled w' = []
      ∧ instances w' !! 0 = Some i'
      ∧ (mounted loading_instance = true →
         UseEff.error (hooks i') = Some transport_error
         ∧ UseEff.UseEff (hooks i') = Div [Text (message transport_error)]
         ∧ mounted i' = true).
Proof.
  split.
  { split; [apply loading_world_reachable|]. split; [reflexivity|]. simpl. lia. }
  exact (proj1 (proj2 (failure_is_delivered_as_data false loading_world 0
                         loading_instance transport_error
                         loading_world_reachable eq_refl (Nat.lt_0_succ 0)))).
Defined.


Lemma failed_attempt_keeps_todos_empty_witness :
  (reachable false loading_world
   ∧ instances loading_world !! 0 = Some loading_instance)
  ∧ ∃ w' i',
      step false loading_world (Settle 0 (Rejected transport_error)) = Some w'
      ∧ instances w' !! 0 = Some i'
      ∧ UseEff.todos (hooks i') = []
      ∧ (mounted loading_instance = true →
         UseEff.error (hooks i') = Some transport_error).
Proof.
  split; [split; [apply loading_world_reachable|reflexivity]|].
  exact (proj2 (proj2 (failed_attempt_keeps_todos_empty false loading_world 0
                         loading_instance loading_world_reachable eq_refl))
           (Nat.lt_0_succ 0) transport_error).
Defined.

(** The two scenarios of the specification, evaluated. *)
Example scenario_two_items :
  UseEff.UseEff (final_hooks (Resolved sample_todos))
  = Section_ "useEffect() vs React Query"
      [mkRow 0 [Text "A"]; mkRow 1 [Text "B"]]
  ∧ RQuery.RQuery (Settled (Resolved sample_todos))
    = Section_ "useEffect() vs React Query"
        [mkRow 0 [Num 1; Text ") "; Text "A"];
         mkRow 1 [Num 2; Text ") "; Text "B"]].
Proof. split; reflexivity. Qed.

Example scenario_transport_error :
  ((λ w, commits <$> instances w)
     <$> run false empty [Mount; Settle 0 (Rejected transport_error)])
  = Some [[Loading; Loading; Failure "Network Error"]]
  ∧ ((λ w, commits <$> instances w)
       <$> run true empty [Mount; Settle 0 (Rejected transport_error)])
    = Some [[Loading; Failure "Network Error"]].
Proof. split; reflexivity. Qed.

(** The continuation of [fetchTodos] calls its setters whether or not the
    instance is still there; it is [dispatch] that leaves an unmounted
    instance alone. *)
Example scenario_late_resolution :
  Async.calls (UseEff.fetchTodos (Resolved sample_todos))
  = [UseEff.setTodos sample_todos; UseEff.setLoading false]
  ∧ ((λ w, hooks <$> instances w)
       <$> run false empty [Mount; Unmount 0; Settle 0 (Resolved sample_todos)])
    = Some [UseEff.initial].
Proof. split; reflexivity. Qed.

(** * Further properties of the two components and their runtime *)

Section MoreFacts.
Variable batched : bool.

Lemma commit_inv i :
  inst_inv i → mounted i = true →
  commit i = mkInstance (hooks i) (mounted i) (last_deps i) (requests i)
               (awaiting i) (commits i ++ [UseEff.view (hooks i)]).
Proof.
  intros Hi Hm. destruct (mounted_renders _ Hi Hm) as [el Hel].
  by rewrite (commit_form _ Hi), Hel.
Qed.

Lemma inst_inv_pending_form i :
  inst_inv i → 0 < awaiting i →
  ∃ n, i = mkInstance UseEff.initial (mounted i) (Some []) 1 1
             (replicate (S n) Loading).
Proof.
  destruct 1 as [n mo|n|r n m mo Hr|raw n]; simpl; intros; [eauto|lia..].
Qed.

Lemma total_requests_inv w :
  world_inv w → total_requests w = length (instances w).
Proof.
  intros [Hf _]. unfold total_requests.
  induction Hf as [|i l Hi _ IH]; [done|].
  cbn [fmap list_fmap sum_list sum_list_with length].
  destruct (inst_inv_requests _ Hi) as [-> _]. fold (requests <$> l).
  fold (sum_list (requests <$> l)). by rewrite IH.
Qed.

Lemma step_length w ev w' :
  step batched w ev = Some w' →
  length (instances w') = length (instances w) + mounts [ev].
Proof.
  destruct ev as [|k|k|k r].
  - rewrite step_Mount. intros [= <-]. cbn [instances mounts].
    by rewrite length_app.
  - intros (i & _ & _ & ->)%step_Rerender_Some. cbn [instances mounts].
    rewrite length_insert. lia.
  - intros (i & _ & _ & ->)%step_Unmount_Some. cbn [instances mounts].
    rewrite length_insert. lia.
  - intros (i & _ & _ & ->)%step_Settle_Some. cbn [instances mounts].
    rewrite length_insert. lia.
Qed.

Lemma run_length evs : ∀ w w',
  run batched w evs = Some w' →
  length (instances w') = length (instances w) + mounts evs.
Proof.
  induction evs as [|ev evs IH]; intros w w' Hr; simpl in Hr.
  - injection Hr as <-. simpl. lia.
  - destruct (step batched w ev) as [w1|] eqn:Hs; [|done]. simpl in Hr.
    rewrite (IH _ _ Hr), (step_length _ _ _ Hs).
    destruct ev; simpl; lia.
Qed.

End MoreFacts.

(** X2.  Along every trace the number of instances and the number of
    requests issued both equal the number of activations: one request per
    activation, whatever re-renders, deactivations and responses come in
    between. *)
Theorem one_request_per_activation
    (batched : bool) (evs : list Event) (w : World) :
  run batched empty evs = Some w →
  length (instances w) = mounts evs ∧ total_requests w = mounts evs.
Proof.
  intros Hr. pose proof (run_length batched _ _ _ Hr) as Hl. simpl in Hl.
  split; [done|]. rewrite total_requests_inv; [done|].
  apply (reachable_inv batched). by exists evs.
Qed.

(** X3.  A re-render requested by the parent puts the current view on the
    screen once more and changes nothing else: the cells are kept and no
    request is issued. *)
Theorem rerender_repeats_the_view
    (batched : bool) (w : World) (k : nat) (i : Instance) :
  reachable batched w →
  instances w !! k = Some i →
  mounted i = true →
  ∃ w' i',
    step batched w (Rerender k) = Some w'
    ∧ instances w' !! k = Some i'
    ∧ hooks i' = hooks i
    ∧ requests i' = requests i
    ∧ awaiting i' = awaiting i
    ∧ commits i' = commits i ++ [UseEff.view (hooks i)]
    ∧ total_requests w' = total_requests w.
Proof.
  intros Hw Hk Hm. pose proof (lookup_lt_Some _ _ _ Hk) as Hlt.
  pose proof (reachable_inst _ _ _ _ Hw Hk) as Hi.
  assert (step batched w (Rerender k)
          = Some (mkWorld (<[k := commit i]> (instances w)) (unhandled w)))
    as Hs.
  { unfold step. rewrite Hk. cbn [mbind option_bind]. by rewrite Hm. }
  exists (mkWorld (<[k := commit i]> (instances w)) (unhandled w)), (commit i).
  split; [done|]. cbn [instances].
  split; [by apply list_lookup_insert_eq|].
  rewrite (commit_inv _ Hi Hm). do 4 (split; [done|]).
  unfold total_requests. cbn [instances].
  rewrite list_fmap_insert. cbn [requests].
  by rewrite list_insert_id by (by rewrite list_lookup_fmap, Hk).
Qed.

Lemma agree_refl i : agree i i.
Proof. by repeat split. Qed.

Lemma agree_commit i1 i2 :
  inst_inv i1 → inst_inv i2 → agree i1 i2 → agree (commit i1) (commit i2).
Proof.
  intros H1 H2 (Hh & Hm & Hq & Ha & Hc).
  rewrite (commit_form _ H1), (commit_form _ H2).
  repeat split; try done. cbn [commits].
  by rewrite !List.filter_app, Hc, Hh.
Qed.

Lemma agree_unmount i1 i2 : agree i1 i2 → agree (unmount i1) (unmount i2).
Proof. intros (Hh & Hm & Hq & Ha & Hc). by repeat split. Qed.

Lemma agree_resume r i1 i2 :
  inst_inv i1 → inst_inv i2 → 0 < awaiting i1 → agree i1 i2 →
  agree (resume true r i1).1 (resume false r i2).1.
Proof.
  intros H1 H2 Ha1 (Hh & Hm & Hq & Ha & Hc).
  destruct (mounted i1) eqn:Hm1.
  - destruct (inst_inv_pending_form _ H1 Ha1) as [n1 E1].
    destruct (inst_inv_pending_form _ H2 ltac:(lia)) as [n2 E2].
    rewrite <- Hm in E2. rewrite Hm1 in E1.
    rewrite E1, E2 in Hc. cbn [commits] in Hc.
    rewrite E1, E2, !resume_mounted. repeat split. cbn [fst commits].
    rewrite !List.filter_app, Hc. simpl. by rewrite app_nil_r.
  - rewrite !resume_unmounted by congruence.
    repeat split; simpl; congruence.
Qed.

Lemma agree_step w1 w2 ev :
  world_inv w1 → world_inv w2 →
  Forall2 agree (instances w1) (instances w2) →
  match step true w1 ev, step false w2 ev with
  | Some w1', Some w2' => Forall2 agree (instances w1') (instances w2')
  | None, None => True
  | _, _ => False
  end.
Proof.
  intros [Hf1 _] [Hf2 _] HA. destruct ev as [|k|k|k r].
  - rewrite !step_Mount. cbn [instances].
    apply Forall2_app; [done|]. constructor; [apply agree_refl|constructor].
  - unfold step.
    destruct (instances w1 !! k) as [i1|] eqn:H1.
    + destruct (Forall2_lookup_l _ _ _ _ _ HA H1) as (i2 & H2 & Hag).
      rewrite H2. cbn [mbind option_bind].
      pose proof Hag as (Hh & Hm & Hrest). rewrite <- Hm.
      destruct (mounted i1); [|done]. cbn [instances].
      apply Forall2_insert; [done|]. apply agree_commit.
      * exact (Forall_lookup_1 _ _ _ _ Hf1 H1).
      * exact (Forall_lookup_1 _ _ _ _ Hf2 H2).
      * exact Hag.
    + destruct (instances w2 !! k) as [i2|] eqn:H2; [|done].
      destruct (Forall2_lookup_r _ _ _ _ _ HA H2) as (i1 & H1' & _).
      congruence.
  - unfold step.
    destruct (instances w1 !! k) as [i1|] eqn:H1.
    + destruct (Forall2_lookup_l _ _ _ _ _ HA H1) as (i2 & H2 & Hag).
      rewrite H2. cbn [mbind option_bind].
      pose proof Hag as (Hh & Hm & Hrest). rewrite <- Hm.
      destruct (mounted i1); [|done]. cbn [instances].
      apply Forall2_insert; [done|]. by apply agree_unmount.
    + destruct (instances w2 !! k) as [i2|] eqn:H2; [|done].
      destruct (Forall2_lookup_r _ _ _ _ _ HA H2) as (i1 & H1' & _).
      congruence.
  - destruct (instances w1 !! k) as [i1|] eqn:H1.
    + destruct (Forall2_lookup_l _ _ _ _ _ HA H1) as (i2 & H2 & Hag).
      pose proof Hag as (Hh & Hm & Hq & Ha & Hc).
      destruct (decide (0 < awaiting i1)) as [Hp|Hp].
      * rewrite (step_Settle true w1 k r i1), (step_Settle false w2 k r i2)
          by (done || lia).
        cbn [instances]. apply Forall2_insert; [done|].
        apply agree_resume; try done.
        -- exact (Forall_lookup_1 _ _ _ _ Hf1 H1).
        -- exact (Forall_lookup_1 _ _ _ _ Hf2 H2).
      * unfold step. rewrite H1, H2. cbn [mbind option_bind].
        rewrite !bool_decide_false by lia. done.
    + unfold step. rewrite H1.
      destruct (instances w2 !! k) as [i2|] eqn:H2.
      * destruct (Forall2_lookup_r _ _ _ _ _ HA H2) as (i1 & H1' & _).
        congruence.
      * done.
Qed.

Lemma agree_run evs : ∀ w1 w2,
  world_inv w1 → world_inv w2 →
  Forall2 agree (instances w1) (instances w2) →
  match run true w1 evs, run false w2 evs with
  | Some w1', Some w2' => Forall2 agree (instances w1') (instances w2')
  | None, None => True
  | _, _ => False
  end.
Proof.
  induction evs as [|ev evs IH]; intros w1 w2 Hw1 Hw2 HA; [done|].
  cbn [run]. pose proof (agree_step w1 w2 ev Hw1 Hw2 HA) as Hs.
  destruct (step true w1 ev) as [w1'|] eqn:E1,
           (step false w2 ev) as [w2'|] eqn:E2; try done.
  cbn [mbind option_bind]. apply IH; [| |done].
  - exact (world_inv_step true _ _ _ Hw1 E1).
  - exact (world_inv_step false _ _ _ Hw2 E2).
Qed.

(** X4.  Whether React commits the setter calls of one continuation
    together or one at a time makes no difference to the outcome: the same
    trace is possible in both modes, and the instances it leads to have the
    same cells, the same mounted flag, the same requests issued and in
    flight, and the same terminal views on the screen in the same order;
    only the number of [Loading] commits can differ. *)
Theorem batching_does_not_change_the_outcome (evs : list Event) :
  match run true empty evs, run false empty evs with
  | Some w1, Some w2 => Forall2 agree (instances w1) (instances w2)
  | None, None => True
  | _, _ => False
  end.
Proof.
  apply agree_run; [apply world_inv_empty..|]. constructor.
Qed.

Lemma UseEff_rows_fmap items :
  UseEff.rows items
  = imap (λ idx s, mkRow idx [Text s]) (title <$> items).
Proof. unfold UseEff.rows. by rewrite imap_fmap. Qed.

Lemma RQuery_rows_fmap items :
  RQuery.rows items
  = imap (λ idx p, mkRow idx [Num p.1; Text ") "; Text p.2])
         ((λ t, (id t, title t)) <$> items).
Proof. unfold RQuery.rows. by rewrite imap_fmap. Qed.

Lemma imap_row_inj {A} (f : A → list Child) (a b : list A) :
  (∀ x y, f x = f y → x = y) →
  imap (λ idx x, mkRow idx (f x)) a = imap (λ idx x, mkRow idx (f x)) b →
  a = b.
Proof.
  intros Hf H. apply list_eq. intros j.
  apply (f_equal (λ l, children <$> l !! j)) in H.
  rewrite !list_lookup_imap in H.
  destruct (a !! j) as [x|], (b !! j) as [y|]; simpl in H; try done.
  injection H as H. f_equal. by apply Hf.
Qed.

(** X5.  Of a successful response only the titles reach the screen of
    [UseEff], and only the ids and titles that of [RQuery]: two responses
    give the same element exactly when they agree on those fields, item by
    item; [userId] and [completed] are never shown. *)
Theorem success_output_depends_on_shown_fields (a b : list Todo) :
  (UseEff.render_view (Success a) = UseEff.render_view (Success b)
   ↔ title <$> a = title <$> b)
  ∧ (RQuery.render_view (Success a) = RQuery.render_view (Success b)
     ↔ (λ t, (id t, title t)) <$> a = (λ t, (id t, title t)) <$> b).
Proof.
  split; split.
  - intros [= H]. rewrite !UseEff_rows_fmap in H.
    apply (imap_row_inj (λ s, [Text s])) in H; [done|]. by intros x y [=].
  - intros H. simpl. by rewrite !UseEff_rows_fmap, H.
  - intros [= H]. rewrite !RQuery_rows_fmap in H.
    apply (imap_row_inj (λ p : Z * string, [Num p.1; Text ") "; Text p.2]))
      in H; [done|].
    intros [x1 x2] [y1 y2] [=]. simpl in *. by subst.
  - intros H. simpl. by rewrite !RQuery_rows_fmap, H.
Qed.

(** X6.  The two components return the same element for [Loading], for
    every [Error] and for an empty list, and different elements for every
    non-empty list ([RQuery] also shows the id of each item). *)
Theorem components_render_alike_except_rows (v : ViewState) :
  UseEff.render_view v = RQuery.render_view v
  ↔ ∀ items, v = Success items → items = [].
Proof.
  destruct v as [|msg|items].
  - split; [by intros _ items [=]|done].
  - split; [by intros _ items [=]|done].
  - split.
    + intros H items' [= <-]. destruct items as [[|t l]|raw]; [done|..].
      * cbn [UseEff.render_view RQuery.render_view] in H.
        unfold UseEff.rows, RQuery.rows in H. rewrite !imap_cons in H.
        by injection H.
      * by injection H.
    + intros H. by rewrite (H items eq_refl).
Qed.

(** * The dependency-array tutorial *)

Lemma dependency_step_console (i : DependencyArray.Instance) ev :
  DependencyArray.deps_mount i = Some [] →
  DependencyArray.deps_count i
  = Some [DependencyArray.count (DependencyArray.state i)] →
  DependencyArray.name (DependencyArray.state i) = "John"
  ∨ DependencyArray.name (DependencyArray.state i) = "Jane" →
  let i' := DependencyArray.step i ev in
  DependencyArray.deps_mount i' = Some []
  ∧ DependencyArray.deps_count i'
    = Some [DependencyArray.count (DependencyArray.state i')]
  ∧ DependencyArray.state i'
    = DependencyArray.on_click ev (DependencyArray.state i)
  ∧ DependencyArray.console i'
    = DependencyArray.console i ++ DependencyArray.lines_of ev.
Proof.
  destruct i as [[c n] dm dc con]. simpl. intros -> -> Hn.
  unfold DependencyArray.step, DependencyArray.set_state. simpl.
  destruct ev; simpl.
  - rewrite bool_decide_false by (intros [=]; lia).
    unfold DependencyArray.commit. simpl.
    rewrite (bool_decide_false (_ = _)) by (intros [=]; lia). simpl.
    by rewrite <- (assoc_L (++)).
  - rewrite bool_decide_false.
    2:{ intros [= H]. case_bool_decide; destruct Hn; congruence. }
    unfold DependencyArray.commit. simpl.
    by rewrite (bool_decide_true ([c] = [c])).
Qed.

Lemma dependency_run_snoc evs ev :
  DependencyArray.run (evs ++ [ev])
  = DependencyArray.step (DependencyArray.run evs) ev.
Proof. unfold DependencyArray.run. by rewrite foldl_app. Qed.

Lemma dependency_run_inv evs :
  let i := DependencyArray.run evs in
  DependencyArray.deps_mount i = Some []
  ∧ DependencyArray.deps_count i
    = Some [DependencyArray.count (DependencyArray.state i)]
  ∧ DependencyArray.count (DependencyArray.state i)
    = Z.of_nat (DependencyArray.increments evs)
  ∧ DependencyArray.name (DependencyArray.state i)
    = (if Nat.even (DependencyArray.renames evs) then "John" else "Jane")
  ∧ DependencyArray.console i
    = [DependencyArray.every_render_line; DependencyArray.mount_line;
       DependencyArray.count_line]
      ++ concat (DependencyArray.lines_of <$> evs).
Proof.
  induction evs as [|ev evs IH] using rev_ind; [by repeat split|].
  cbv zeta in *. destruct IH as (Hm & Hc & Hn & Hs & Hl).
  rewrite dependency_run_snoc.
  destruct (dependency_step_console (DependencyArray.run evs) ev Hm Hc)
    as (Hm' & Hc' & Hst & Hl').
  { rewrite Hs. destruct (Nat.even _); auto. }
  split; [done|]. split; [done|]. rewrite Hst, Hl', Hl.
  unfold DependencyArray.increments, DependencyArray.renames.
  rewrite !List.filter_app, !length_app, fmap_app, concat_app.
  fold (DependencyArray.increments evs) (DependencyArray.renames evs).
  split; [|split].
  - destruct ev; simpl; lia.
  - destruct ev; simpl.
    + by rewrite Nat.add_0_r.
    + rewrite Hs, Nat.add_1_r, Nat.even_succ, <- Nat.negb_even.
      by destruct (Nat.even _).
  - simpl. by rewrite app_nil_r.
Qed.

(** X7.  The console of [ExampleComponent] is determined by the clicks:
    the three effects log once each at mount, in the order they are
    declared; afterwards every click logs the line of the effect without
    dependency array, a click on "Increment Count" also logs the line of
    the [[count]] effect, and the line of the [[]] effect never appears
    again. *)
Theorem dependency_array_console (evs : list DependencyArray.Event) :
  DependencyArray.console (DependencyArray.run evs)
  = [DependencyArray.every_render_line; DependencyArray.mount_line;
     DependencyArray.count_line]
    ++ concat (DependencyArray.lines_of <$> evs).
Proof. apply dependency_run_inv. Qed.

(** X8.  After any sequence of clicks [count] is the number of clicks on
    "Increment Count" and [name] is "John" after an even number of clicks
    on "Change Name" and "Jane" after an odd number. *)
Theorem dependency_array_cells (evs : list DependencyArray.Event) :
  DependencyArray.count (DependencyArray.state (DependencyArray.run evs))
  = Z.of_nat (DependencyArray.increments evs)
  ∧ DependencyArray.name (DependencyArray.state (DependencyArray.run evs))
    = if Nat.even (DependencyArray.renames evs) then "John" else "Jane".
Proof.
  destruct (dependency_run_inv evs) as (_ & _ & Hn & Hs & _). done.
Qed.

(** * The cleanup tutorial *)

Section CleanupFacts.
Import Cleanup.

Lemma cleanup_run_snoc effect evs ev :
  run effect (evs ++ [ev]) = step effect (run effect evs) ev.
Proof. unfold run. by rewrite foldl_app. Qed.

Lemma cleanup_shown effect evs :
  showExample (run effect evs) = Nat.even (clicks evs).
Proof.
  induction evs as [|ev evs IH] using rev_ind.
  - unfold run, start, reconcile. simpl. by destruct (effect _).
  - rewrite cleanup_run_snoc. unfold clicks.
    rewrite List.filter_app, length_app. fold (clicks evs).
    destruct ev; simpl.
    + rewrite Nat.add_1_r, Nat.even_succ, <- Nat.negb_even, <- IH.
      unfold reconcile. destruct (showExample (run effect evs)); simpl;
        [done|]. by destruct (effect _).
    + by rewrite Nat.add_0_r.
Qed.

(** With the cleanup: one interval while the child is shown, whose
    cleanup is registered, none while it is hidden. *)
Lemma with_cleanup_inv evs :
  let a := run with_cleanup evs in
  if showExample a then
    ∃ interval,
      child a = Some (Some (λ b, log cleared_line (clearInterval interval b)))
      ∧ timers (browser a) = {[interval]}
  else child a = None ∧ timers (browser a) = ∅.
Proof.
  induction evs as [|ev evs IH] using rev_ind.
  - cbv zeta. exists 1. split; [done|].
    unfold run, start, reconcile, with_cleanup, setInterval.
    cbn [foldl browser timers next_timer]. apply union_empty_r_L.
  - cbv zeta in *. rewrite cleanup_run_snoc.
    set (a := run with_cleanup evs) in *.
    destruct ev; unfold step, reconcile, tick.
    + destruct (showExample a); cbn [negb].
      * destruct IH as (interval & -> & Ht). split; [done|].
        unfold log, clearInterval. cbn [browser timers].
        rewrite Ht. apply difference_diag_L.
      * destruct IH as (_ & Ht). exists (next_timer (browser a)).
        split; [done|]. unfold with_cleanup, setInterval.
        cbn [browser timers]. rewrite Ht. apply union_empty_r_L.
    + cbn [showExample child browser timers]. exact IH.
Qed.

(** Without it: every mount adds an interval and nothing removes one. *)
Lemma without_cleanup_click a :
  child a ≠ None → showExample a = true →
  (∀ c, child a ≠ Some (Some c)) →
  step without_cleanup a Click = mkApp false None (browser a).
Proof.
  intros Hc Hs Hn. unfold step, reconcile. rewrite Hs. cbn [negb].
  destruct (child a) as [[c|]|]; [by destruct (Hn c)|done|done].
Qed.

Lemma without_cleanup_click_hidden a :
  showExample a = false →
  step without_cleanup a Click
  = mkApp true (Some None)
      (mkBrowser ({[next_timer (browser a)]} ∪ timers (browser a))
                 (S (next_timer (browser a))) (console (browser a))).
Proof. intros Hs. unfold step, reconcile. by rewrite Hs. Qed.

Lemma without_cleanup_inv evs :
  let a := run without_cleanup evs in
  size (timers (browser a)) = S (clicks evs / 2)
  ∧ (∀ t, t ∈ timers (browser a) → t < next_timer (browser a))
  ∧ (child a = None ∨ child a = Some None).
Proof.
  induction evs as [|ev evs IH] using rev_ind.
  - cbv zeta. unfold run, start, reconcile, without_cleanup, setInterval.
    cbn [foldl browser timers next_timer child].
    rewrite union_empty_r_L, size_singleton. split; [done|]. split; [|auto].
    intros t Ht. apply elem_of_union in Ht as [Ht|Ht].
    + apply elem_of_singleton in Ht. lia.
    + by apply elem_of_empty in Ht.
  - cbv zeta in *. rewrite cleanup_run_snoc. destruct IH as (Hs & Hlt & Hc).
    pose proof (cleanup_shown without_cleanup evs) as Hshow.
    unfold clicks. rewrite List.filter_app, length_app. fold (clicks evs).
    set (a := run without_cleanup evs) in *.
    destruct ev; cbn [List.filter length].
    + rewrite Nat.add_1_r.
      destruct (Nat.even (clicks evs)) eqn:He.
      * assert (step without_cleanup a Click = mkApp false None (browser a))
          as ->.
        { unfold step, reconcile. rewrite Hshow. cbn [negb].
          by destruct Hc as [-> | ->]. }
        cbn [browser child]. split; [|auto]. rewrite Hs.
        apply Nat.even_spec in He as [m ->].
        replace (S (2 * m)) with (1 + m * 2) by lia.
        rewrite Nat.div_add by lia. rewrite (Nat.mul_comm 2 m).
        by rewrite Nat.div_mul by lia.
      * rewrite (without_cleanup_click_hidden a Hshow).
        cbn [browser timers next_timer child]. split; [|split; [|auto]].
        -- rewrite size_union, size_singleton, Hs.
           2:{ intros t ->%elem_of_singleton Ht%Hlt. lia. }
           rewrite <- Nat.negb_odd in He.
           apply negb_false_iff, Nat.odd_spec in He as [m ->].
           replace (S (2 * m + 1)) with ((m + 1) * 2) by lia.
           rewrite Nat.div_mul by lia.
           replace (2 * m + 1) with (1 + m * 2) by lia.
           rewrite Nat.div_add by lia. simpl. lia.
        -- intros t [->%elem_of_singleton|Ht%Hlt]%elem_of_union; lia.
    + rewrite Nat.add_0_r. unfold step, tick.
      by cbn [browser timers next_timer child].
Qed.

End CleanupFacts.

(** X9.  With the cleanup function, exactly one interval is active while
    [ExampleComponent] is shown and none while it is hidden; so as long
    as the component stays hidden the console gets no further line,
    however many periods go by. *)
Theorem cleanup_leaves_no_interval (evs : list Cleanup.Event) (n : nat) :
  let a := Cleanup.run Cleanup.with_cleanup evs in
  size (Cleanup.timers (Cleanup.browser a))
  = (if Cleanup.showExample a then 1 else 0)
  ∧ (Cleanup.showExample a = false →
     Cleanup.console
       (Cleanup.browser
          (Cleanup.run Cleanup.with_cleanup (evs ++ replicate n Cleanup.Tick)))
     = Cleanup.console (Cleanup.browser a)).
Proof.
  cbv zeta. pose proof (with_cleanup_inv evs) as Hi. cbv zeta in Hi.
  split.
  - destruct (Cleanup.showExample _).
    + destruct Hi as (interval & _ & ->). apply size_singleton.
    + destruct Hi as [_ ->]. apply size_empty.
  - intros Hh. rewrite Hh in Hi. destruct Hi as [_ Ht].
    unfold Cleanup.run. rewrite foldl_app.
    fold (Cleanup.run Cleanup.with_cleanup evs).
    induction n as [|n IH]; [done|].
    rewrite replicate_S_end, foldl_app. simpl.
    set (a' := foldl _ _ (replicate n Cleanup.Tick)) in *.
    assert (Cleanup.timers (Cleanup.browser a') = ∅) as Ht'.
    { unfold a'. clear IH. induction n as [|n IHn]; [done|].
      by rewrite replicate_S_end, foldl_app. }
    rewrite Ht', size_empty. simpl. by rewrite app_nil_r.
Qed.

(** X10.  Without the cleanup function every mount of the component
    leaves one more interval behind: after [c] clicks on the button
    [1 + c / 2] intervals are active, whether the component is shown or
    not, and each period logs that many lines. *)
Theorem missing_cleanup_leaks_intervals (evs : list Cleanup.Event) :
  let a := Cleanup.run Cleanup.without_cleanup evs in
  size (Cleanup.timers (Cleanup.browser a)) = S (Cleanup.clicks evs / 2)
  ∧ Cleanup.console
      (Cleanup.browser
         (Cleanup.run Cleanup.without_cleanup (evs ++ [Cleanup.Tick])))
    = Cleanup.console (Cleanup.browser a)
      ++ replicate (S (Cleanup.clicks evs / 2)) Cleanup.running_line.
Proof.
  cbv zeta. destruct (without_cleanup_inv evs) as [Hs _].
  split; [done|]. rewrite cleanup_run_snoc.
  unfold Cleanup.step, Cleanup.tick. cbn [Cleanup.browser Cleanup.console].
  by rewrite Hs.
Qed.

(** * The [useState] tutorial *)

(** X11.  [incrementTwice] with [setCount(count + 1)] twice adds one per
    click, because both calls put the same value in the queue; with two
    functional updates it adds two per click. *)
Theorem increment_twice_counts (n : nat) :
  StateUpdates.clicks StateUpdates.incrementTwice_stale n = Z.of_nat n
  ∧ StateUpdates.clicks StateUpdates.incrementTwice n = (2 * Z.of_nat n)%Z.
Proof.
  unfold StateUpdates.clicks. induction n as [|n [IH1 IH2]]; [done|].
  rewrite !Nat.iter_succ, IH1, IH2.
  unfold StateUpdates.click, StateUpdates.reduce. simpl. lia.
Qed.

(** X12.  [handleClick] logs the count of the render it was created in,
    not the one it has just set: after [n] clicks the cell holds [n] and
    the console holds [0, 1, ..., n - 1]. *)
Theorem handle_click_logs_previous_count (n : nat) :
  StateUpdates.logged_clicks StateUpdates.handleClick n
  = (Z.of_nat n, Z.of_nat <$> seq 0 n).
Proof.
  unfold StateUpdates.logged_clicks. induction n as [|n IH]; [done|].
  rewrite Nat.iter_succ, IH. cbn [fst snd StateUpdates.handleClick].
  unfold StateUpdates.reduce. cbn [foldl]. f_equal; [lia|].
  by rewrite seq_S, fmap_app.
Qed.

(** * The caching example *)

Section CachingFacts.
Import Caching.
Context {Data : Type}.
Variable stringify : Data → string.
Variable parse : string → option Data.
Variable renderable : Data → bool.

Lemma caching_effect_hit st s :
  st !! key = Some s → s ≠ "" →
  awaiting (effect parse renderable st) = false
  ∧ data (effect parse renderable st) = parse s
  ∧ threw (effect parse renderable st)
    = match parse s with Some d => negb (renderable d) | None => true end
  ∧ (mounted (effect parse renderable st) = true →
     ∃ d, parse s = Some d ∧ renderable d = true).
Proof.
  intros Hs Hne. unfold effect. rewrite Hs, bool_decide_false by done.
  destruct (parse s) as [d|]; cbn [awaiting data threw mounted]; [|done].
  do 3 (split; [done|]). eauto.
Qed.

Lemma caching_effect_miss st :
  st !! key = None ∨ st !! key = Some "" → effect parse renderable st = fetching.
Proof. unfold effect. by intros [-> | ->]. Qed.

Lemma cache_final_step n0 s w ev w' :
  s ≠ "" → cache_final parse renderable n0 s w → step stringify parse renderable w ev = Some w' →
  cache_final parse renderable n0 s w'
  ∧ storage w' = storage w ∧ requests w' = requests w
  ∧ errors w' = errors w.
Proof.
  intros Hne (Hs & Hq & Hl & Hnew) Hstep.
  destruct (caching_effect_hit _ _ Hs Hne) as (Ha & Hrest).
  destruct ev as [|k|k r]; simpl in Hstep.
  - injection Hstep as <-. cbn [storage requests errors instances].
    rewrite Ha. split; [|split; [done|split; [lia|done]]].
    split; [done|]. split.
    { apply Forall_app; split; [done|]. by constructor. }
    cbn [instances]. rewrite length_app. split; [lia|].
    intros k i Hk Hle. apply lookup_app_Some in Hk as [Hk|[_ Hk]].
    + by apply (Hnew k i).
    + apply list_lookup_singleton_Some in Hk as [_ <-]. done.
  - destruct (instances w !! k) as [i|] eqn:Hk; [|done]. simpl in Hstep.
    destruct (mounted i); [|done]. injection Hstep as <-.
    cbn [storage requests errors instances]. split; [|done].
    split; [done|]. split.
    { apply Forall_insert; [done|]. simpl.
      exact (Forall_lookup_1 _ _ _ _ Hq Hk). }
    cbn [instances]. rewrite length_insert. split; [done|].
    intros k' i' Hk' Hle.
    destruct (decide (k = k')) as [->|Hnek].
    + rewrite list_lookup_insert_eq in Hk' by exact (lookup_lt_Some _ _ _ Hk).
      injection Hk' as <-. cbn [deactivate data threw mounted].
      destruct (Hnew k' i Hk Hle) as (Hd & Ht & _). done.
    + rewrite list_lookup_insert_ne in Hk' by done. by apply (Hnew k' i').
  - destruct (instances w !! k) as [i|] eqn:Hk; [|done]. simpl in Hstep.
    by rewrite (Forall_lookup_1 _ _ _ _ Hq Hk) in Hstep.
Qed.

Lemma cache_final_run n0 s evs : ∀ w w',
  s ≠ "" → cache_final parse renderable n0 s w → run stringify parse renderable w evs = Some w' →
  cache_final parse renderable n0 s w'
  ∧ storage w' = storage w ∧ requests w' = requests w
  ∧ errors w' = errors w.
Proof.
  induction evs as [|ev evs IH]; intros w w' Hne Hc Hr; simpl in Hr.
  - by injection Hr as <-.
  - destruct (step stringify parse renderable w ev) as [w1|] eqn:Hstep; [|done].
    simpl in Hr.
    destruct (cache_final_step _ _ _ _ _ Hne Hc Hstep) as (Hc1 & E1 & E2 & E3).
    destruct (IH _ _ Hne Hc1 Hr) as (Hc' & E1' & E2' & E3').
    split; [done|]. split; [congruence|]. split; congruence.
Qed.

(** No event writes another entry of the storage. *)
Lemma caching_step_frame w ev w' k :
  k ≠ key → step stringify parse renderable w ev = Some w' →
  storage w' !! k = storage w !! k.
Proof.
  intros Hk Hstep. destruct ev as [|j|j r]; simpl in Hstep.
  - by injection Hstep as <-.
  - destruct (instances w !! j) as [i|]; [|done]. simpl in Hstep.
    destruct (mounted i); [|done]. by injection Hstep as <-.
  - destruct (instances w !! j) as [i|]; [|done]. simpl in Hstep.
    destruct (awaiting i); [|done]. destruct r; injection Hstep as <-.
    + simpl. by rewrite lookup_insert_ne.
    + done.
Qed.

End CachingFacts.

(** X13.  A non-empty cache entry is final.  Once [localStorage] holds a
    non-empty string under "cachedData" and no request is in flight, no
    sequence of events issues a request, logs an error or changes the
    storage; every instance activated from then on holds what
    [JSON.parse] makes of that string; it throws, and React removes it,
    if the string does not parse or parses to a value that React cannot
    render; so an instance that is still mounted holds a value that is on
    the screen. *)
Theorem cache_entry_is_final
    {Data : Type} (stringify : Data → string) (parse : string → option Data)
    (renderable : Data → bool)
    (w w' : Caching.World) (evs : list Caching.Event) (s : string) :
  Caching.storage w !! Caching.key = Some s →
  s ≠ ""%string →
  Caching.quiet w →
  Caching.run stringify parse renderable w evs = Some w' →
  Caching.storage w' = Caching.storage w
  ∧ Caching.requests w' = Caching.requests w
  ∧ Caching.errors w' = Caching.errors w
  ∧ ∀ k i, Caching.instances w' !! k = Some i →
           length (Caching.instances w) ≤ k →
           Caching.data i = parse s
           ∧ Caching.threw i = match parse s with
                               | Some d => negb (renderable d)
                               | None => true
                               end
           ∧ (Caching.mounted i = true →
              ∃ d, parse s = Some d ∧ renderable d = true).
Proof.
  intros Hs Hne Hq Hr.
  destruct (cache_final_run stringify parse renderable (length (Caching.instances w)) s
              evs w w' Hne) as ((_ & _ & _ & Hnew) & E1 & E2 & E3);
    [|done|done].
  split; [done|]. split; [done|]. split; [lia|].
  intros k i Hk%lookup_lt_Some Hle. lia.
Qed.

(** X14.  The first activation fills the cache and the next one reads it
    back.  Starting without a usable entry and with nothing in flight, an
    activation issues one request; when it returns [d], the instance holds
    [d] and the storage holds [JSON.stringify(d)] under "cachedData"; and
    if that string is not empty and parses back to [d], a second
    activation holds [d] without issuing a request.  Both instances show
    [d] if React can render it; if it cannot, both throw in render and are
    removed, the cache being filled all the same. *)
Theorem cache_round_trip
    {Data : Type} (stringify : Data → string) (parse : string → option Data)
    (renderable : Data → bool)
    (w : Caching.World) (d : Data) :
  Caching.storage w !! Caching.key = None
  ∨ Caching.storage w !! Caching.key = Some ""%string →
  Caching.quiet w →
  stringify d ≠ ""%string →
  parse (stringify d) = Some d →
  ∃ w' i1 i2,
    Caching.run stringify parse renderable w
      [Caching.Activate;
       Caching.Settle (length (Caching.instances w)) (Caching.Returned d);
       Caching.Activate] = Some w'
    ∧ Caching.storage w' = <[Caching.key := stringify d]> (Caching.storage w)
    ∧ Caching.requests w' = S (Caching.requests w)
    ∧ Caching.instances w' !! length (Caching.instances w) = Some i1
    ∧ Caching.data i1 = Some d
    ∧ Caching.mounted i1 = renderable d
    ∧ Caching.threw i1 = negb (renderable d)
    ∧ Caching.instances w' !! S (length (Caching.instances w)) = Some i2
    ∧ Caching.data i2 = Some d
    ∧ Caching.mounted i2 = renderable d
    ∧ Caching.threw i2 = negb (renderable d)
    ∧ Caching.awaiting i2 = false.
Proof.
  intros Hmiss Hq Hne Hrt.
  pose proof (caching_effect_miss parse renderable _ Hmiss) as Hf.
  set (n := length (Caching.instances w)).
  set (i1 := Caching.on_returned renderable d Caching.fetching).
  set (i2 := Caching.mkInstance (Some d) (renderable d) false
               (negb (renderable d))).
  exists (Caching.mkWorld (<[Caching.key := stringify d]> (Caching.storage w))
            (<[n := i1]> (Caching.instances w ++ [Caching.fetching]) ++ [i2])
            (Caching.requests w + 1 + 0) (Caching.errors w)), i1, i2.
  assert ((Caching.instances w ++ [Caching.fetching]) !! n
          = Some Caching.fetching) as Hn.
  { unfold n. by rewrite lookup_app_r, Nat.sub_diag. }
  split.
  { cbn [Caching.run Caching.step]. rewrite Hf.
    cbn [mbind option_bind Caching.instances Caching.storage Caching.awaiting
         Caching.fetching Caching.requests Caching.errors].
    fold n. rewrite Hn. cbn [mbind option_bind Caching.awaiting
      Caching.fetching Caching.instances Caching.storage Caching.requests
      Caching.errors].
    unfold Caching.effect. rewrite lookup_insert_eq.
    rewrite bool_decide_false by done. rewrite Hrt. done. }
  cbn [Caching.storage Caching.requests Caching.instances].
  split; [done|]. split; [lia|].
  assert (length (<[n := i1]> (Caching.instances w ++ [Caching.fetching]))
          = S n) as Hlen.
  { rewrite length_insert, length_app. simpl. unfold n. lia. }
  split.
  { rewrite lookup_app_l by lia. apply list_lookup_insert_eq.
    rewrite length_app. simpl. unfold n. lia. }
  do 3 (split; [done|]). split; [|done].
  rewrite lookup_app_r by lia. by rewrite Hlen, Nat.sub_diag.
Qed.

(** X15.  A failed request caches nothing: the error goes to the console,
    the storage and the [data] cell stay as they were, and the next
    activation asks the API again. *)
Theorem failed_request_caches_nothing
    {Data : Type} (stringify : Data → string) (parse : string → option Data)
    (renderable : Data → bool)
    (w : Caching.World) (e : Error) :
  Caching.storage w !! Caching.key = None
  ∨ Caching.storage w !! Caching.key = Some ""%string →
  ∃ w' i1 i2,
    Caching.run stringify parse renderable w
      [Caching.Activate;
       Caching.Settle (length (Caching.instances w)) (Caching.Failed e);
       Caching.Activate] = Some w'
    ∧ Caching.storage w' = Caching.storage w
    ∧ Caching.errors w' = Caching.errors w ++ [e]
    ∧ Caching.requests w' = S (S (Caching.requests w))
    ∧ Caching.instances w' !! length (Caching.instances w) = Some i1
    ∧ Caching.data i1 = None
    ∧ Caching.instances w' !! S (length (Caching.instances w)) = Some i2
    ∧ Caching.awaiting i2 = true.
Proof.
  intros Hmiss.
  pose proof (caching_effect_miss parse renderable _ Hmiss) as Hf.
  set (n := length (Caching.instances w)).
  set (i1 := Caching.on_failed (@Caching.fetching Data)).
  exists (Caching.mkWorld (Caching.storage w)
            (<[n := i1]> (Caching.instances w ++ [Caching.fetching])
             ++ [Caching.fetching])
            (Caching.requests w + 1 + 1) (Caching.errors w ++ [e])),
    i1, Caching.fetching.
  assert ((Caching.instances w ++ [Caching.fetching]) !! n
          = Some Caching.fetching) as Hn.
  { unfold n. by rewrite lookup_app_r, Nat.sub_diag. }
  split.
  { cbn [Caching.run Caching.step]. rewrite Hf.
    cbn [mbind option_bind Caching.instances Caching.storage Caching.awaiting
         Caching.fetching Caching.requests Caching.errors].
    fold n. rewrite Hn. cbn [mbind option_bind Caching.awaiting
      Caching.fetching Caching.instances Caching.storage Caching.requests
      Caching.errors].
    rewrite Hf. done. }
  cbn [Caching.storage Caching.requests Caching.instances Caching.errors].
  split; [done|]. split; [done|]. split; [lia|].
  assert (length (<[n := i1]> (Caching.instances w ++ [Caching.fetching]))
          = S n) as Hlen.
  { rewrite length_insert, length_app. simpl. unfold n. lia. }
  split.
  { rewrite lookup_app_l by lia. apply list_lookup_insert_eq.
    rewrite length_app. simpl. unfold n. lia. }
  split; [done|]. split; [|done].
  rewrite lookup_app_r by lia. by rewrite Hlen, Nat.sub_diag.
Qed.

(** X16.  A response that arrives after its instance was deactivated is
    still written to the cache: the instance keeps its empty [data] cell,
    but the storage holds the stringified response. *)
Theorem late_response_still_cached
    {Data : Type} (stringify : Data → string) (parse : string → option Data)
    (renderable : Data → bool)
    (w : Caching.World) (d : Data) :
  Caching.storage w !! Caching.key = None
  ∨ Caching.storage w !! Caching.key = Some ""%string →
  ∃ w' i,
    Caching.run stringify parse renderable w
      [Caching.Activate;
       Caching.Deactivate (length (Caching.instances w));
       Caching.Settle (length (Caching.instances w)) (Caching.Returned d)]
    = Some w'
    ∧ Caching.instances w' !! length (Caching.instances w) = Some i
    ∧ Caching.data i = None
    ∧ Caching.storage w' !! Caching.key = Some (stringify d).
Proof.
  intros Hmiss.
  pose proof (caching_effect_miss parse renderable _ Hmiss) as Hf.
  set (n := length (Caching.instances w)).
  assert ((Caching.instances w ++ [Caching.fetching]) !! n
          = Some Caching.fetching) as Hn.
  { unfold n. by rewrite lookup_app_r, Nat.sub_diag. }
  assert (n < length (Caching.instances w ++ [Caching.fetching])) as Hlt.
  { rewrite length_app. simpl. unfold n. lia. }
  eexists _, _. split.
  { cbn [Caching.run Caching.step]. rewrite Hf.
    cbn [mbind option_bind Caching.instances Caching.storage Caching.awaiting
         Caching.fetching Caching.requests Caching.errors].
    fold n. rewrite Hn. cbn [mbind option_bind Caching.mounted
      Caching.fetching Caching.instances Caching.storage Caching.requests
      Caching.errors].
    rewrite list_lookup_insert_eq by done.
    cbn [mbind option_bind Caching.awaiting Caching.deactivate
         Caching.fetching]. reflexivity. }
  cbn [Caching.instances Caching.storage].
  split; [apply list_lookup_insert_eq; by rewrite length_insert|].
  split; [done|]. apply lookup_insert_eq.
Qed.

(** X17.  Whatever happens, the component writes no entry of the storage
    other than "cachedData". *)
Theorem cache_touches_one_key
    {Data : Type} (stringify : Data → string) (parse : string → option Data)
    (renderable : Data → bool)
    (evs : list Caching.Event) (w w' : Caching.World) (k : string) :
  k ≠ Caching.key →
  Caching.run stringify parse renderable w evs = Some w' →
  Caching.storage w' !! k = Caching.storage w !! k.
Proof.
  intros Hk. revert w. induction evs as [|ev evs IH]; intros w Hr;
    simpl in Hr.
  - by injection Hr as <-.
  - destruct (Caching.step stringify parse renderable w ev) as [w1|] eqn:Hstep; [|done].
    simpl in Hr. rewrite (IH _ Hr).
    by eapply caching_step_frame.
Qed.

(** * The debouncing hook *)

Section DebounceFacts.
Import Debounce.
Variable delay : nat.

Lemma debounce_run_snoc evs ev :
  run delay (evs ++ [ev]) = step delay (run delay evs) ev.
Proof. unfold run. by rewrite foldl_app. Qed.

Lemma debounce_run_app evs evs' :
  run delay (evs ++ evs') = foldl (step delay) (run delay evs) evs'.
Proof. unfold run. by rewrite foldl_app. Qed.

(** A commit that sees the dependencies of the previous one changes
    nothing. *)
Lemma commit_same n m v dv h ts nx :
  commit delay (mkWorld n m v dv h (Some (v, delay)) ts nx)
  = mkWorld n m v dv h (Some (v, delay)) ts nx.
Proof. unfold commit. simpl. by rewrite bool_decide_true. Qed.

(** A commit after [value] changed, with at most the timer of
    [handler.current] pending: that timer is cleared and a new one is
    armed for the new value. *)
Lemma commit_changed n m v v0 dv h ts nx :
  v0 ≠ v →
  ts = [] ∨ (∃ t, ts = [t] ∧ h = Some (timer_id t) ∧ timer_id t ≠ 0) →
  commit delay (mkWorld n m v dv h (Some (v0, delay)) ts nx)
  = mkWorld n m v dv (Some nx) (Some (v, delay))
      [mkTimer nx (n + delay) v] (S nx).
Proof.
  intros Hv Hts. unfold commit. simpl.
  rewrite bool_decide_false by (intros [=]; congruence).
  destruct Hts as [->|(t & -> & -> & Hz)].
  - unfold clear_handler, effect, clearTimeout, arm. simpl.
    destruct h as [id|]; simpl; [|done]. by destruct (Nat.eqb id 0).
  - unfold clear_handler, effect, clearTimeout, arm. simpl.
    rewrite Nat.eqb_refl. simpl.
    apply Nat.eqb_neq in Hz. by rewrite Hz.
Qed.

Lemma start_armed :
  start delay
  = mkWorld 0 true "" "" (Some 1) (Some (""%string, delay))
      [mkTimer 1 (0 + delay) ""] 2.
Proof. reflexivity. Qed.

Lemma inv_start : inv delay (start delay).
Proof.
  rewrite start_armed. unfold inv, settled_or_armed.
  cbn [mounted deps value next_timer timers debouncedValue handler now].
  split; [done|]. split; [lia|]. right. eexists. split; [done|].
  cbn [payload timer_id due]. repeat split; try done.
Qed.

(** An input that changes [value] arms one timer, due [delay] later. *)
Lemma input_changed v w :
  mounted w = true → inv delay w → v ≠ value w →
  input delay v w
  = mkWorld (now w) true v (debouncedValue w) (Some (next_timer w))
      (Some (v, delay)) [mkTimer (next_timer w) (now w + delay) v]
      (S (next_timer w)).
Proof.
  unfold inv, settled_or_armed. intros Hm. rewrite Hm.
  intros (Hd & Hn & Hc) Hv.
  unfold input. rewrite bool_decide_false by done.
  destruct w as [n m x dv h dp ts nx]. simpl in *. subst m dp.
  apply commit_changed; [congruence|].
  destruct Hc as [[-> _]|(t & -> & _ & -> & Hz & _)]; [by left|].
  right. eauto.
Qed.

Lemma inv_input v w :
  mounted w = true → inv delay w → inv delay (input delay v w).
Proof.
  intros Hm Hi. destruct (decide (v = value w)) as [Hv|Hv].
  - unfold input. by rewrite bool_decide_true.
  - rewrite input_changed by done. unfold inv, settled_or_armed. simpl.
    unfold inv, settled_or_armed in Hi. rewrite Hm in Hi. destruct Hi as (_ & Hn & _).
    split; [done|]. split; [lia|]. right. eexists. split; [done|]. simpl.
    repeat split; try done. lia.
Qed.

(** A millisecond on a settled [App], and on one whose timer is not due
    yet, or is. *)
Lemma tick_settled n m v dv h dp nx :
  tick delay (mkWorld n m v dv h dp [] nx) = mkWorld (S n) m v dv h dp [] nx.
Proof. reflexivity. Qed.

Lemma tick_waiting n m v dv h dp t nx :
  S n < due t →
  tick delay (mkWorld n m v dv h dp [t] nx) = mkWorld (S n) m v dv h dp [t] nx.
Proof.
  intros Hd. unfold tick. simpl.
  assert (Nat.leb (due t) (S n) = false) as -> by (apply Nat.leb_gt; lia).
  done.
Qed.

Lemma tick_fires n m v dv h t nx :
  due t ≤ S n → payload t = v →
  tick delay (mkWorld n m v dv h (Some (v, delay)) [t] nx)
  = mkWorld (S n) m v v h (Some (v, delay)) [] nx.
Proof.
  intros Hd Hp. unfold tick. simpl.
  assert (Nat.leb (due t) (S n) = true) as -> by (apply Nat.leb_le; lia).
  simpl. unfold fire. simpl. rewrite Hp.
  case_bool_decide as He; [by subst|]. by rewrite commit_same.
Qed.

Lemma inv_tick w : inv delay w → inv delay (tick delay w).
Proof.
  unfold inv, settled_or_armed. destruct w as [n m v dv h dp ts nx]. simpl.
  destruct m; simpl.
  - intros (-> & Hn & [[-> ->]|(t & -> & Hp & -> & Hz & Hdue)]).
    + rewrite tick_settled. simpl. split; [done|]. split; [done|]. by left.
    + destruct (decide (due t ≤ S n)) as [Hle|Hgt].
      * rewrite tick_fires by done. simpl.
        split; [done|]. split; [done|]. by left.
      * rewrite tick_waiting by lia. simpl.
        split; [done|]. split; [done|]. right. exists t.
        repeat split; try done. lia.
  - intros ->. by rewrite tick_settled.
Qed.

Lemma inv_unmount w : mounted w = true → inv delay w → inv delay (unmount w).
Proof.
  unfold inv, settled_or_armed. intros Hm. rewrite Hm.
  intros (_ & _ & [[Ht _]|(t & Ht & _ & Hh & _)]).
  - unfold unmount, clear_handler, clearTimeout. simpl.
    destruct (handler w); simpl; by rewrite Ht.
  - unfold unmount, clear_handler, clearTimeout. rewrite Hh. simpl.
    rewrite Ht. simpl. by rewrite Nat.eqb_refl.
Qed.

Lemma inv_step w ev : inv delay w → inv delay (step delay w ev).
Proof.
  intros Hi. destruct ev as [v| |]; simpl.
  - destruct (mounted w) eqn:Hm; [by apply inv_input|done].
  - by apply inv_tick.
  - destruct (mounted w) eqn:Hm; [by apply inv_unmount|done].
Qed.

Lemma inv_run evs : inv delay (run delay evs).
Proof.
  induction evs as [|ev evs IH] using rev_ind; [apply inv_start|].
  rewrite debounce_run_snoc. by apply inv_step.
Qed.

(** Millisecond after millisecond. *)
Lemma ticks_settled d : ∀ n m v dv h dp nx,
  foldl (step delay) (mkWorld n m v dv h dp [] nx) (replicate d Tick)
  = mkWorld (n + d) m v dv h dp [] nx.
Proof.
  induction d as [|d IH]; intros; simpl.
  - by rewrite Nat.add_0_r.
  - rewrite tick_settled, IH. f_equal. lia.
Qed.

Lemma ticks_waiting d : ∀ n m v dv h dp t nx,
  n + d < due t →
  foldl (step delay) (mkWorld n m v dv h dp [t] nx) (replicate d Tick)
  = mkWorld (n + d) m v dv h dp [t] nx.
Proof.
  induction d as [|d IH]; intros n m v dv h dp t nx Hd; simpl.
  - by rewrite Nat.add_0_r.
  - rewrite tick_waiting by lia. rewrite IH by lia. f_equal. lia.
Qed.

Lemma ticks_fire d : ∀ n m v dv h t nx,
  0 < d → due t ≤ n + d → payload t = v →
  foldl (step delay) (mkWorld n m v dv h (Some (v, delay)) [t] nx)
    (replicate d Tick)
  = mkWorld (n + d) m v v h (Some (v, delay)) [] nx.
Proof.
  induction d as [|d IH]; intros n m v dv h t nx Hd Hdue Hp; [lia|].
  simpl. destruct (decide (due t ≤ S n)) as [Hle|Hgt].
  - rewrite tick_fires by done. rewrite ticks_settled. f_equal. lia.
  - rewrite tick_waiting by lia. rewrite IH by (done || lia). f_equal. lia.
Qed.

End DebounceFacts.

(** X18.  Once the input has been left alone for [delay] milliseconds (at
    least one), the debounced value is the content of the input and no
    timer is pending. *)
Theorem debounce_catches_up
    (delay : nat) (evs : list Debounce.Event) (d : nat) :
  Debounce.mounted (Debounce.run delay evs) = true →
  0 < d →
  delay ≤ d →
  let w' := Debounce.run delay (evs ++ replicate d Debounce.Tick) in
  Debounce.debouncedValue w' = Debounce.value (Debounce.run delay evs)
  ∧ Debounce.value w' = Debounce.value (Debounce.run delay evs)
  ∧ Debounce.timers w' = [].
Proof.
  intros Hm Hd Hle. cbv zeta. rewrite debounce_run_app.
  pose proof (inv_run delay evs) as Hi.
  unfold Debounce.inv, Debounce.settled_or_armed in Hi. rewrite Hm in Hi.
  destruct (Debounce.run delay evs) as [n m v dv h dp ts nx]. simpl in *.
  destruct Hi as (-> & Hn & [[-> ->]|(t & -> & Hp & -> & Hz & Hdue)]).
  - by rewrite ticks_settled.
  - rewrite ticks_fire by (done || lia). done.
Qed.

(** X19.  An input that changes the content restarts the wait: for less
    than [delay] milliseconds after it the debounced value stays what it
    was, and exactly one timer is pending, due [delay] milliseconds after
    the input, whatever was pending before. *)
Theorem debounce_holds_back
    (delay : nat) (evs : list Debounce.Event) (v : string) (d : nat) :
  Debounce.mounted (Debounce.run delay evs) = true →
  v ≠ Debounce.value (Debounce.run delay evs) →
  d < delay →
  let w := Debounce.run delay evs in
  let w' := Debounce.run delay
              (evs ++ Debounce.Input v :: replicate d Debounce.Tick) in
  Debounce.debouncedValue w' = Debounce.debouncedValue w
  ∧ Debounce.value w' = v
  ∧ ∃ t, Debounce.timers w' = [t]
         ∧ Debounce.payload t = v
         ∧ Debounce.due t = Debounce.now w + delay.
Proof.
  intros Hm Hv Hd. cbv zeta. rewrite debounce_run_app.
  cbn [foldl Debounce.step]. rewrite Hm.
  rewrite (input_changed delay) by (done || apply inv_run).
  rewrite ticks_waiting by (simpl; lia). simpl.
  split; [done|]. split; [done|]. eexists. by split.
Qed.

(** X20.  [useDebounce] never has more than one timer pending, and after
    the unmount it has none: its callback cannot run on an instance that
    is gone. *)
Theorem debounce_has_at_most_one_timer
    (delay : nat) (evs : list Debounce.Event) :
  let w := Debounce.run delay evs in
  length (Debounce.timers w) ≤ 1
  ∧ (Debounce.mounted w = false → Debounce.timers w = []).
Proof.
  cbv zeta. pose proof (inv_run delay evs) as Hi.
  unfold Debounce.inv, Debounce.settled_or_armed in Hi.
  destruct (Debounce.mounted (Debounce.run delay evs)).
  - split; [|done].
    destruct Hi as (_ & _ & [[-> _]|(t & -> & _)]); simpl; lia.
  - rewrite Hi. split; [simpl; lia|done].
Qed.

(** * The full name: effect against computation *)

Lemma string_length_app (s t : string) :
  String.length (s +:+ t) = String.length s + String.length t.
Proof. induction s as [|a s IH]; simpl; [done|]. by rewrite IH. Qed.

Lemma string_app_inj_r (t s1 s2 : string) : s1 +:+ t = s2 +:+ t → s1 = s2.
Proof.
  revert s2. induction s1 as [|a s1 IH]; intros [|b s2] H.
  - done.
  - apply (f_equal String.length) in H.
    change (String.length t = S (String.length (s2 +:+ t))) in H.
    rewrite string_length_app in H. lia.
  - apply (f_equal String.length) in H.
    change (S (String.length (s1 +:+ t)) = String.length t) in H.
    rewrite string_length_app in H. lia.
  - change (String a (s1 +:+ t) = String b (s2 +:+ t)) in H.
    injection H as -> H. f_equal. by apply IH.
Qed.

Lemma full_name_inj_first f1 f2 l :
  DerivedState.full_name f1 l = DerivedState.full_name f2 l → f1 = f2.
Proof. unfold DerivedState.full_name. apply string_app_inj_r. Qed.

Lemma full_name_inj_last f l1 l2 :
  DerivedState.full_name f l1 = DerivedState.full_name f l2 → l1 = l2.
Proof.
  unfold DerivedState.full_name. intros H.
  by do 2 apply String.app_inj in H.
Qed.

Section DerivedStateFacts.
Import DerivedState.

Lemma commit_stale fuel f l full0 f0 l0 scr :
  (f0, l0) ≠ (f, l) → full_name f l ≠ full0 →
  commit (S fuel) (mkInstance f l full0 (Some [f0; l0]) scr)
  = mkInstance f l (full_name f l) (Some [f; l])
      (scr ++ [mkScreen f l full0; mkScreen f l (full_name f l)]).
Proof.
  intros Hd Hf. simpl.
  rewrite (bool_decide_false ([f0; l0] = [f; l])) by (intros [=]; congruence).
  simpl. rewrite bool_decide_false by done.
  destruct fuel; simpl; rewrite ?bool_decide_true by done; simpl;
    unfold show; simpl; by rewrite <- (assoc_L (++)).
Qed.

Lemma in_step_mount fuel : in_step (mount (S fuel)) plain_mount.
Proof.
  unfold mount, plain_mount. simpl.
  destruct fuel; simpl; by repeat split.
Qed.

Lemma in_step_step fuel i p ev :
  in_step i p → in_step (step (S fuel) i ev) (plain_step p ev).
Proof.
  intros (Hf & Hl & Hfull & Hd & Hlast & Hlen).
  destruct i as [f l full dp scr], p as [pf pl pscr].
  cbn [firstName lastName fullName deps screens plain_first plain_last
       plain_screens] in *.
  subst pf pl full dp.
  destruct ev as [s|s]; unfold step, plain_step;
    cbn [firstName lastName fullName deps screens plain_first plain_last
         plain_screens];
    case_bool_decide as Hs; try by repeat split.
  - rewrite commit_stale.
    + unfold in_step, plain_commit.
      cbn [firstName lastName fullName deps screens plain_first plain_last
           plain_screens].
      repeat split; try done.
      * rewrite !last_app. simpl. done.
      * rewrite !length_app. simpl. lia.
    + intros [=]. congruence.
    + intros H%full_name_inj_first. congruence.
  - rewrite commit_stale.
    + unfold in_step, plain_commit.
      cbn [firstName lastName fullName deps screens plain_first plain_last
           plain_screens].
      repeat split; try done.
      * rewrite !last_app. simpl. done.
      * rewrite !length_app. simpl. lia.
    + intros [=]. congruence.
    + intros H%full_name_inj_last. congruence.
Qed.

Lemma in_step_run fuel evs : in_step (run (S fuel) evs) (plain_run evs).
Proof.
  unfold run, plain_run.
  induction evs as [|ev evs IH] using rev_ind; [apply in_step_mount|].
  rewrite !foldl_app. by apply in_step_step.
Qed.

Lemma step_fuel fuel i p ev :
  in_step i p → step (S fuel) i ev = step 1 i ev.
Proof.
  intros (Hf & Hl & Hfull & Hd & _).
  destruct i as [f l full dp scr].
  cbn [firstName lastName fullName deps screens] in *. subst full dp.
  destruct ev as [s|s]; unfold step;
    cbn [firstName lastName fullName deps screens];
    case_bool_decide as Hs; try done.
  - rewrite !commit_stale; try done.
    + intros [=]. congruence.
    + intros H%full_name_inj_first. congruence.
    + intros [=]. congruence.
    + intros H%full_name_inj_first. congruence.
  - rewrite !commit_stale; try done.
    + intros [=]. congruence.
    + intros H%full_name_inj_last. congruence.
    + intros [=]. congruence.
    + intros H%full_name_inj_last. congruence.
Qed.

Lemma run_fuel fuel evs : run (S fuel) evs = run 1 evs.
Proof.
  induction evs as [|ev evs IH] using rev_ind.
  - unfold run, mount. simpl. by destruct fuel.
  - unfold run in *. rewrite !foldl_app. cbn [foldl]. rewrite IH.
    apply (step_fuel fuel _ (plain_run evs)). apply (in_step_run 0).
Qed.

Lemma first_screen fuel evs :
  ∃ l, screens (run (S fuel) evs) = mkScreen "" "" "" :: l.
Proof.
  induction evs as [|ev evs [l IH]] using rev_ind.
  - unfold run, mount. simpl. destruct fuel; simpl; eauto.
  - pose proof (in_step_run fuel evs) as (_ & _ & Hfu & Hd & _).
    unfold run in *. rewrite foldl_app. cbn [foldl].
    destruct (foldl _ _ evs) as [f l0 full dp scr].
    cbn [firstName lastName fullName deps screens] in *. subst full dp scr.
    destruct ev as [s|s]; unfold step;
      cbn [firstName lastName fullName deps screens];
      case_bool_decide as Hs; eauto.
    + rewrite commit_stale; cbn [screens]; eauto.
      * intros [=]. congruence.
      * intros H%full_name_inj_first. congruence.
    + rewrite commit_stale; cbn [screens]; eauto.
      * intros [=]. congruence.
      * intros H%full_name_inj_last. congruence.
Qed.

Lemma plain_first_screen evs :
  ∃ l, plain_screens (plain_run evs) = mkScreen "" "" " " :: l.
Proof.
  induction evs as [|ev evs [l IH]] using rev_ind; [by eexists|].
  unfold plain_run in *. rewrite foldl_app. cbn [foldl].
  destruct (foldl _ _ evs) as [pf pl pscr]. cbn [plain_screens] in IH.
  subst pscr.
  destruct ev as [s|s]; unfold plain_step, plain_commit;
    cbn [plain_first plain_last plain_screens];
    case_bool_decide; cbn [plain_screens]; eauto.
Qed.

Lemma interleave_snoc l : ∀ prev s,
  interleave prev (l ++ [s])
  = interleave prev l
    ++ [mkScreen (shown_first s) (shown_last s)
          (default prev (shown_full <$> last l)); s].
Proof.
  induction l as [|x l IH]; intros prev s; [done|].
  cbn [app interleave]. rewrite IH, last_cons.
  by destruct (last l).
Qed.

Lemma run_interleave fuel evs :
  screens (run (S fuel) evs) = interleave "" (plain_screens (plain_run evs))
  ∧ default ""%string (shown_full <$> last (plain_screens (plain_run evs)))
    = fullName (run (S fuel) evs).
Proof.
  induction evs as [|ev evs [IH1 IH2]] using rev_ind.
  - unfold run, mount, plain_run, plain_mount. simpl.
    destruct fuel; simpl; by split.
  - pose proof (in_step_run fuel evs) as (Hf & Hl & Hfu & Hd & _).
    unfold run, plain_run in *. rewrite !foldl_app. cbn [foldl].
    destruct (foldl (step _) _ evs) as [f l full dp scr].
    destruct (foldl plain_step _ evs) as [pf pl pscr].
    cbn [firstName lastName fullName deps screens plain_first plain_last
         plain_screens] in *.
    subst pf pl dp scr.
    destruct ev as [s|s]; unfold step, plain_step;
      cbn [firstName lastName fullName deps screens plain_first plain_last
           plain_screens];
      case_bool_decide as Hs; try done.
    + rewrite commit_stale.
      * unfold plain_commit.
        cbn [firstName lastName fullName deps screens plain_first plain_last
             plain_screens].
        rewrite interleave_snoc, last_snoc, IH2. done.
      * intros [=]. congruence.
      * rewrite Hfu. intros H%full_name_inj_first. congruence.
    + rewrite commit_stale.
      * unfold plain_commit.
        cbn [firstName lastName fullName deps screens plain_first plain_last
             plain_screens].
        rewrite interleave_snoc, last_snoc, IH2. done.
      * intros [=]. congruence.
      * rewrite Hfu. intros H%full_name_inj_last. congruence.
Qed.

End DerivedStateFacts.

(** X21.  Keeping the full name in a cell that an effect updates shows,
    once the effect has run, the same screen as computing it while
    rendering: after any sequence of inputs the last screen of the two
    versions of [MyComponent] is the same, with the full name made of the
    two inputs; one re-render after the effect is all it takes. *)
Theorem full_name_versions_agree
    (fuel : nat) (evs : list DerivedState.Event) :
  let i := DerivedState.run (S fuel) evs in
  let p := DerivedState.plain_run evs in
  last (DerivedState.screens i) = last (DerivedState.plain_screens p)
  ∧ DerivedState.fullName i
    = DerivedState.full_name (DerivedState.firstName i)
        (DerivedState.lastName i)
  ∧ DerivedState.run (S fuel) evs = DerivedState.run 1 evs.
Proof.
  cbv zeta. destruct (in_step_run fuel evs) as (_ & _ & Hfull & _ & Hlast & _).
  split; [done|]. split; [done|]. apply run_fuel.
Qed.

(** X22.  The version with the effect commits twice for every commit of
    the version without: its screens are those of the version without,
    each preceded by a screen with the same inputs that still shows the
    full name of before (the empty paragraph at the mount). *)
Theorem full_name_effect_renders_twice
    (fuel : nat) (evs : list DerivedState.Event) :
  DerivedState.screens (DerivedState.run (S fuel) evs)
  = DerivedState.interleave ""
      (DerivedState.plain_screens (DerivedState.plain_run evs))
  ∧ length (DerivedState.screens (DerivedState.run (S fuel) evs))
  = 2 * length (DerivedState.plain_screens (DerivedState.plain_run evs))
  ∧ head (DerivedState.screens (DerivedState.run (S fuel) evs))
    = Some (DerivedState.mkScreen "" "" "")
  ∧ head (DerivedState.plain_screens (DerivedState.plain_run evs))
    = Some (DerivedState.mkScreen "" "" " ").
Proof.
  destruct (in_step_run fuel evs) as (_ & _ & _ & _ & _ & Hlen).
  split; [apply run_interleave|]. split; [done|].
  destruct (first_screen fuel evs) as [l ->].
  destruct (plain_first_screen evs) as [l' ->]. done.
Qed.

(** * An object in the dependency array *)

Section ReferentialDepsFacts.
Import ReferentialDeps.

Lemma alike_mount : alike [] (mount person_plain) (mount person_memo).
Proof.
  unfold alike, mount, commit. simpl. split; [done|].
  split; [exists 0; split; [done|lia]|].
  split; [exists 0; split; [done|split; [lia|done]]|]. done.
Qed.

Lemma toggles_snoc evs ev :
  toggles (evs ++ [ev])
  = toggles evs + (if ev is ToggleDark then 1 else 0).
Proof.
  unfold toggles. rewrite List.filter_app, length_app. by destruct ev.
Qed.

Lemma alike_step evs a b ev :
  alike evs a b →
  alike (evs ++ [ev]) (step person_plain a ev) (step person_memo b ev).
Proof.
  intros (Hc & (ra & Hda & Hra) & (rb & Hdb & Hrb & Hm) & Hla & Hlb & Hlen).
  destruct a as [ca na ma da la], b as [cb nb mb db lb].
  cbn [cells next_ref memo dep console] in *.
  subst cb da db mb. unfold step. cbn [cells].
  case_bool_decide as Hsame.
  { (* the setter got the value the cell already has *)
    unfold alike. rewrite toggles_snoc.
    cbn [cells next_ref memo dep console].
    destruct ev as [s|n|].
    - repeat split; eauto; lia.
    - repeat split; eauto; lia.
    - exfalso. destruct ca as [n0 a0 dm]. simpl in Hsame.
      injection Hsame as Hdm. by destruct dm. }
  unfold commit, person_plain, person_memo, Hooks.effect_due.
  cbn [cells next_ref memo dep console].
  rewrite (bool_decide_false ([ra] = [na])) by (intros [=]; lia).
  cbn [negb].
  destruct ev as [s|n|]; cbn [on_event age name] in *.
  - rewrite (bool_decide_false ((age ca, name ca) = (age ca, s))).
    2:{ intros [= E]. apply Hsame. destruct ca; simpl in *; by subst. }
    cbn [cells next_ref memo dep console].
    rewrite (bool_decide_false ([rb] = [nb])) by (intros [=]; lia).
    cbn [negb]. unfold alike. rewrite toggles_snoc.
    cbn [cells next_ref memo dep console age name].
    split; [done|]. split; [exists na; split; [done|lia]|].
    split; [exists nb; split; [done|split; [lia|done]]|].
    rewrite !last_snoc, !length_app. simpl. repeat split; lia.
  - rewrite (bool_decide_false ((age ca, name ca) = (n, name ca))).
    2:{ intros [= E]. apply Hsame. destruct ca; simpl in *; by subst. }
    cbn [cells next_ref memo dep console].
    rewrite (bool_decide_false ([rb] = [nb])) by (intros [=]; lia).
    cbn [negb]. unfold alike. rewrite toggles_snoc.
    cbn [cells next_ref memo dep console age name].
    split; [done|]. split; [exists na; split; [done|lia]|].
    split; [exists nb; split; [done|split; [lia|done]]|].
    rewrite !last_snoc, !length_app. simpl. repeat split; lia.
  - rewrite (bool_decide_true ((age ca, name ca) = (age ca, name ca))) by done.
    cbn [cells next_ref memo dep console].
    rewrite (bool_decide_true ([rb] = [rb])) by done.
    cbn [negb]. unfold alike. rewrite toggles_snoc.
    cbn [cells next_ref memo dep console age name].
    split; [done|]. split; [exists na; split; [done|lia]|].
    split; [exists rb; split; [done|split; [lia|done]]|].
    rewrite !last_snoc, !length_app. simpl. repeat split; try done. lia.
Qed.

Lemma alike_run evs : alike evs (run person_plain evs) (run person_memo evs).
Proof.
  induction evs as [|ev evs IH] using rev_ind; [apply alike_mount|].
  unfold run. rewrite !foldl_app. by apply alike_step.
Qed.

End ReferentialDepsFacts.

(** X23.  With [person] built anew at every render the effect runs at
    every commit, also when only the dark mode was toggled; with
    [useMemo] it does not run for a toggle.  So after any sequence of
    events the two versions have the same cells, the console of the first
    is longer than that of the second by exactly the number of toggles,
    and both end with the current age and name. *)
Theorem memo_spares_the_effect (evs : list ReferentialDeps.Event) :
  let a := ReferentialDeps.run ReferentialDeps.person_plain evs in
  let b := ReferentialDeps.run ReferentialDeps.person_memo evs in
  ReferentialDeps.cells a = ReferentialDeps.cells b
  ∧ length (ReferentialDeps.console a)
    = length (ReferentialDeps.console b) + ReferentialDeps.toggles evs
  ∧ last (ReferentialDeps.console a)
    = Some (ReferentialDeps.age (ReferentialDeps.cells a),
            ReferentialDeps.name (ReferentialDeps.cells a))
  ∧ last (ReferentialDeps.console b) = last (ReferentialDeps.console a).
Proof.
  cbv zeta. destruct (alike_run evs) as (Hc & _ & _ & Hla & Hlb & Hlen).
  split; [done|]. split; [done|]. split; [done|]. by rewrite Hla, Hlb, Hc.
Qed.

(** * An object changed in place *)

Lemma mutation_mount :
  Mutation.mount
  = Mutation.mkInstance {[0 := Mutation.mkUser "Alice" 25]} 1 0
      [("Alice"%string, 25%Z)].
Proof.
  unfold Mutation.mount, Mutation.commit.
  cbn [Mutation.heap Mutation.user Mutation.next_ref Mutation.screens].
  by rewrite lookup_singleton_eq.
Qed.

Lemma in_place_click u scr :
  Mutation.updateAge_in_place (Mutation.mkInstance {[0 := u]} 1 0 scr)
  = Mutation.mkInstance {[0 := Mutation.mkUser (Mutation.name u) 26]} 1 0 scr.
Proof.
  unfold Mutation.updateAge_in_place.
  cbn [Mutation.heap Mutation.user Mutation.next_ref Mutation.screens].
  by rewrite alter_singleton_eq.
Qed.

Lemma in_place_clicks n :
  Mutation.run Mutation.updateAge_in_place (replicate (S n) Mutation.Click)
  = Mutation.mkInstance {[0 := Mutation.mkUser "Alice" 26]} 1 0
      [("Alice"%string, 25%Z)].
Proof.
  unfold Mutation.run. induction n as [|n IH].
  - cbn [replicate foldl Mutation.step].
    by rewrite mutation_mount, in_place_click.
  - rewrite replicate_S_end, foldl_app, IH. cbn [foldl Mutation.step].
    by rewrite in_place_click.
Qed.

(** X24.  Changing [user.age] in place and handing the same object to
    [setUser] never reaches the screen by itself: after any number of
    clicks the object has age 26 but the only screen committed still shows
    25; the new age appears when something else makes [App] render. *)
Theorem in_place_update_is_not_shown (n : nat) :
  let i := Mutation.run Mutation.updateAge_in_place
             (replicate (S n) Mutation.Click) in
  Mutation.heap i !! Mutation.user i = Some (Mutation.mkUser "Alice" 26)
  ∧ Mutation.screens i = [("Alice"%string, 25%Z)]
  ∧ Mutation.screens
      (Mutation.run Mutation.updateAge_in_place
         (replicate (S n) Mutation.Click ++ [Mutation.Rerender]))
    = [("Alice"%string, 25%Z); ("Alice"%string, 26%Z)].
Proof.
  cbv zeta.
  assert (Mutation.run Mutation.updateAge_in_place
            (replicate (S n) Mutation.Click ++ [Mutation.Rerender])
          = Mutation.commit
              (Mutation.run Mutation.updateAge_in_place
                 (replicate (S n) Mutation.Click))) as ->.
  { unfold Mutation.run. by rewrite foldl_app. }
  rewrite in_place_clicks.
  cbn [Mutation.heap Mutation.user Mutation.screens].
  rewrite lookup_singleton_eq. split; [done|]. split; [done|].
  unfold Mutation.commit.
  cbn [Mutation.heap Mutation.user Mutation.screens].
  by rewrite lookup_singleton_eq.
Qed.

Lemma copy_clicks n :
  let i := Mutation.run Mutation.updateAge (replicate n Mutation.Click) in
  Mutation.heap i !! 0 = Some (Mutation.mkUser "Alice" 25)
  ∧ Mutation.next_ref i = S n
  ∧ Mutation.user i = n
  ∧ Mutation.heap i !! n
    = Some (Mutation.mkUser "Alice" (if n is 0 then 25 else 26))
  ∧ Mutation.screens i
    = ("Alice"%string, 25%Z) :: replicate n ("Alice"%string, 26%Z).
Proof.
  induction n as [|n IH]; cbv zeta.
  - unfold Mutation.run. cbn [replicate foldl]. rewrite mutation_mount.
    cbn [Mutation.heap Mutation.user Mutation.next_ref Mutation.screens].
    by rewrite !lookup_singleton_eq.
  - rewrite replicate_S_end. unfold Mutation.run. rewrite foldl_app.
    fold (Mutation.run Mutation.updateAge (replicate n Mutation.Click)).
    cbv zeta in IH. destruct IH as (H0 & Hn & Hu & Hcur & Hscr).
    destruct (Mutation.run _ _) as [hp nx us scr].
    cbn [Mutation.heap Mutation.user Mutation.next_ref Mutation.screens] in *.
    subst nx us scr. cbn [foldl Mutation.step]. unfold Mutation.updateAge.
    cbn [Mutation.heap Mutation.user Mutation.next_ref Mutation.screens].
    rewrite Hcur. unfold Mutation.commit.
    cbn [Mutation.heap Mutation.user Mutation.next_ref Mutation.screens
         Mutation.name Mutation.age].
    rewrite lookup_insert_eq.
    cbn [Mutation.heap Mutation.user Mutation.next_ref Mutation.screens
         Mutation.name Mutation.age].
    split; [by rewrite lookup_insert_ne by lia|].
    split; [done|]. split; [done|]. split; [done|].
    by rewrite (replicate_S_end n), <- app_comm_cons.
Qed.

(** X25.  Replacing [user] by a copy with the new age leaves the object of
    the first render as it was and shows the new age after the first
    click; every further click creates one more object and commits one
    more screen, although nothing visible changes. *)
Theorem copy_update_is_shown (n : nat) :
  let i := Mutation.run Mutation.updateAge (replicate (S n) Mutation.Click) in
  Mutation.heap i !! 0 = Some (Mutation.mkUser "Alice" 25)
  ∧ last (Mutation.screens i) = Some ("Alice"%string, 26%Z)
  ∧ length (Mutation.screens i) = S (S n)
  ∧ Mutation.user i = S n.
Proof.
  cbv zeta. destruct (copy_clicks (S n)) as (H0 & _ & Hu & _ & Hscr).
  cbv zeta in *. split; [done|]. rewrite Hscr.
  split; [|split; [|done]].
  - rewrite replicate_S_end, app_comm_cons. apply last_snoc.
  - simpl. by rewrite length_replicate.
Qed.

(** * The refetching example *)

Section PollingFacts.
Import Polling.

Lemma last_cons_from_option {A} (d : A) (x : option A) (l : list A) :
  from_option Some (Some d) (last l) = from_option Some x (last (d :: l)).
Proof.
  destruct l as [|a l]; [done|]. rewrite last_cons_cons.
  destruct (last (a :: l)) eqn:E; [done|].
  by apply last_None in E.
Qed.

Lemma polling_unmounted evs : ∀ w w',
  mounted w = false → interval w = false → run w evs = Some w' →
  next_request w' = next_request w ∧ data w' = data w
  ∧ unhandled w' = unhandled w ++ failures evs.
Proof.
  induction evs as [|ev evs IH]; intros w w' Hm Hi Hr; simpl in Hr.
  - injection Hr as <-. by rewrite app_nil_r.
  - destruct ev as [|id r|]; simpl in Hr.
    + rewrite Hi in Hr. simpl in Hr. by apply IH.
    + case_bool_decide; [|done]. simpl in Hr.
      destruct (IH (resume id r w) w' Hm Hi Hr) as (E1 & E2 & E3).
      simpl in E1, E2, E3. rewrite Hm in E2.
      split; [done|]. destruct r as [d|e]; simpl.
      * by rewrite E2, E3.
      * by rewrite E2, E3, <- (assoc_L (++)).
    + by rewrite Hm in Hr.
Qed.

Lemma polling_mounted evs : ∀ w w',
  mounted w = true → interval w = true → run w evs = Some w' →
  next_request w' = next_request w + periods (live evs)
  ∧ data w' = from_option Some (data w) (last (arrived (live evs)))
  ∧ unhandled w' = unhandled w ++ failures evs.
Proof.
  induction evs as [|ev evs IH]; intros w w' Hm Hi Hr; simpl in Hr.
  - injection Hr as <-. simpl. by rewrite app_nil_r, Nat.add_0_r.
  - destruct ev as [|id r|]; simpl in Hr.
    + rewrite Hi in Hr. simpl in Hr.
      destruct (IH (fetchData w) w' Hm Hi Hr) as (E1 & E2 & E3).
      simpl in E1, E2, E3. unfold periods. simpl. fold (periods (live evs)).
      split; [lia|]. by split.
    + case_bool_decide; [|done]. simpl in Hr.
      destruct (IH (resume id r w) w' Hm Hi Hr) as (E1 & E2 & E3).
      simpl in E1, E2, E3. rewrite Hm in E2. unfold periods. simpl.
      fold (periods (live evs)). split; [done|].
      destruct r as [d|e]; simpl.
      * split; [|done]. rewrite E2. apply last_cons_from_option.
      * split; [done|]. by rewrite E3, <- (assoc_L (++)).
    + rewrite Hm in Hr. simpl in Hr.
      destruct (polling_unmounted evs
                  (mkWorld false false (data w) (next_request w) (inflight w)
                     (unhandled w)) w' eq_refl eq_refl Hr)
        as (E1 & E2 & E3).
      simpl in *. unfold periods. simpl. rewrite Nat.add_0_r. done.
Qed.

End PollingFacts.



(** X28.  A failed call is handled nowhere: every failure, before or
    after the unmount, ends as an unhandled rejection, in the order of
    arrival, and changes neither the cell nor the number of calls. *)
Theorem polling_failures_are_unhandled
    (evs : list Polling.Event) (w : Polling.World) :
  Polling.run Polling.start evs = Some w →
  Polling.unhandled w = Polling.failures evs.
Proof.
  intros Hr.
  destruct (polling_mounted evs Polling.start w eq_refl eq_refl Hr)
    as (_ & _ & E).
  by rewrite E.
Qed.

(** * The further properties at sample inputs *)

Lemma one_request_per_activation_witness :
  length (instances (default empty (run true empty sample_trace))) = 2
  ∧ total_requests (default empty (run true empty sample_trace)) = 2.
Proof.
  exact (one_request_per_activation true sample_trace
           (default empty (run true empty sample_trace)) eq_refl).
Defined.

Lemma rerender_repeats_the_view_witness :
  ∃ w' i',
    step true success_world (Rerender 0) = Some w'
    ∧ instances w' !! 0 = Some i'
    ∧ hooks i' = hooks success_instance
    ∧ requests i' = requests success_instance
    ∧ awaiting i' = awaiting success_instance
    ∧ commits i'
      = commits success_instance ++ [UseEff.view (hooks success_instance)]
    ∧ total_requests w' = total_requests success_world.
Proof.
  exact (rerender_repeats_the_view true success_world 0 success_instance
           success_world_reachable eq_refl eq_refl).
Defined.

Lemma cached_world_quiet : Caching.quiet cached_world.
Proof. constructor. Defined.

Lemma no_cache_world_quiet : Caching.quiet no_cache_world.
Proof. constructor. Defined.

Lemma cache_entry_is_final_witness :
  let w' := default cached_world
              (Caching.run json_of_bool bool_of_json bool_renderable cached_world cached_trace) in
  Caching.storage w' = Caching.storage cached_world
  ∧ Caching.requests w' = 0
  ∧ Caching.errors w' = []
  ∧ ∀ k i, Caching.instances w' !! k = Some i → 0 ≤ k →
           Caching.data i = Some true
           ∧ Caching.threw i = false
           ∧ (Caching.mounted i = true →
              ∃ d, bool_of_json "true" = Some d ∧ bool_renderable d = true).
Proof.
  exact (cache_entry_is_final json_of_bool bool_of_json bool_renderable cached_world
           (default cached_world
              (Caching.run json_of_bool bool_of_json bool_renderable cached_world cached_trace))
           cached_trace "true" eq_refl ltac:(discriminate) cached_world_quiet
           eq_refl).
Defined.

Lemma cache_round_trip_witness :
  ∃ w' i1 i2,
    Caching.run json_of_bool bool_of_json bool_renderable no_cache_world
      [Caching.Activate; Caching.Settle 0 (Caching.Returned true);
       Caching.Activate] = Some w'
    ∧ Caching.storage w' = <[Caching.key := "true"%string]> ∅
    ∧ Caching.requests w' = 1
    ∧ Caching.instances w' !! 0 = Some i1
    ∧ Caching.data i1 = Some true
    ∧ Caching.mounted i1 = true
    ∧ Caching.threw i1 = false
    ∧ Caching.instances w' !! 1 = Some i2
    ∧ Caching.data i2 = Some true
    ∧ Caching.mounted i2 = true
    ∧ Caching.threw i2 = false
    ∧ Caching.awaiting i2 = false.
Proof.
  exact (cache_round_trip json_of_bool bool_of_json bool_renderable no_cache_world true
           (or_introl eq_refl) no_cache_world_quiet ltac:(discriminate)
           eq_refl).
Defined.

Lemma failed_request_caches_nothing_witness :
  ∃ w' i1 i2,
    Caching.run json_of_bool bool_of_json bool_renderable no_cache_world
      [Caching.Activate; Caching.Settle 0 (Caching.Failed transport_error);
       Caching.Activate] = Some w'
    ∧ Caching.storage w' = ∅
    ∧ Caching.errors w' = [transport_error]
    ∧ Caching.requests w' = 2
    ∧ Caching.instances w' !! 0 = Some i1
    ∧ Caching.data i1 = None
    ∧ Caching.instances w' !! 1 = Some i2
    ∧ Caching.awaiting i2 = true.
Proof.
  exact (failed_request_caches_nothing json_of_bool bool_of_json bool_renderable
           no_cache_world transport_error (or_introl eq_refl)).
Defined.

Lemma late_response_still_cached_witness :
  ∃ w' i,
    Caching.run json_of_bool bool_of_json bool_renderable no_cache_world
      [Caching.Activate; Caching.Deactivate 0;
       Caching.Settle 0 (Caching.Returned false)] = Some w'
    ∧ Caching.instances w' !! 0 = Some i
    ∧ Caching.data i = None
    ∧ Caching.storage w' !! Caching.key = Some "false"%string.
Proof.
  exact (late_response_still_cached json_of_bool bool_of_json bool_renderable no_cache_world
           false (or_introl eq_refl)).
Defined.

Lemma cache_touches_one_key_witness :
  Caching.storage
    (default no_cache_world
       (Caching.run json_of_bool bool_of_json bool_renderable no_cache_world
          [Caching.Activate; Caching.Settle 0 (Caching.Returned true)]))
  !! "theme"%string = None.
Proof.
  exact (cache_touches_one_key json_of_bool bool_of_json bool_renderable
           [Caching.Activate; Caching.Settle 0 (Caching.Returned true)]
           no_cache_world
           (default no_cache_world
              (Caching.run json_of_bool bool_of_json bool_renderable no_cache_world
                 [Caching.Activate; Caching.Settle 0 (Caching.Returned true)]))
           "theme" ltac:(discriminate) eq_refl).
Defined.

Lemma debounce_catches_up_witness :
  Debounce.debouncedValue
    (Debounce.run 3 (typing_trace ++ replicate 3 Debounce.Tick))
  = "ab"%string
  ∧ Debounce.value (Debounce.run 3 (typing_trace ++ replicate 3 Debounce.Tick))
    = "ab"%string
  ∧ Debounce.timers
      (Debounce.run 3 (typing_trace ++ replicate 3 Debounce.Tick)) = [].
Proof.
  exact (debounce_catches_up 3 typing_trace 3 eq_refl
           (Nat.lt_0_succ 2) (le_n 3)).
Defined.

Lemma debounce_holds_back_witness :
  Debounce.debouncedValue
    (Debounce.run 3
       (typing_trace ++ Debounce.Input "abc" :: replicate 2 Debounce.Tick))
  = ""%string
  ∧ Debounce.value
      (Debounce.run 3
         (typing_trace ++ Debounce.Input "abc" :: replicate 2 Debounce.Tick))
    = "abc"%string
  ∧ ∃ t, Debounce.timers
           (Debounce.run 3
              (typing_trace
               ++ Debounce.Input "abc" :: replicate 2 Debounce.Tick)) = [t]
         ∧ Debounce.payload t = "abc"%string
         ∧ Debounce.due t = 1 + 3.
Proof.
  exact (debounce_holds_back 3 typing_trace "abc" 2 eq_refl
           ltac:(discriminate) (le_n 3)).
Defined.



Lemma polling_failures_are_unhandled_witness :
  Polling.unhandled polling_world = [transport_error].
Proof.
  exact (polling_failures_are_unhandled polling_trace polling_world eq_refl).
Defined.
